(** * feed_sinai: the record transformation engine and the date parser

    A shallow embedding of [src/date_parser.py] and [src/feed_ursus.py].
    Python values are a small universe [pyval]; dictionaries are finite maps
    ([gmap]), Python sets are finite sets ([gset]); code that can raise
    returns in the error type [res]; the one function that talks to the
    network, [thumbnail_from_manifest], runs in a monad [io] that records
    every HTTP request made.

    The libraries the code calls but does not define are parameters of the
    sections below: [parse] is [dateutil.parser.parse], [requests_get] is
    [requests.get], [series_eq] is the comparison of a pandas column with
    a value that is not a string, [FIELD_MAPPING] and [thumbnail_url] are
    those of the [mapper] module, which is not among the sources. *)

From stdpp Require Import base strings list gmap sorting.
From Stdlib Require Import ZArith Ascii.

Open Scope Z_scope.

(** ** Python values *)

(** [datetime.datetime].  A datetime is naive (no time zone) or aware.
    Python's [==], [hash] and [<] look at the seven fields of a naive
    value and at the instant of an aware one, whatever zone it is written
    in; an aware and a naive value are never equal, and ordering them
    raises [TypeError].  The model keeps a datetime up to [==]: the seven
    fields of the constructor for a naive value, the seven fields of the
    instant in UTC for an aware one, and [aware] to tell which.
    [datetime(1978, 1, 1)] is [mk_datetime 1978 1 1 0 0 0 0 false]. *)
Record datetime := mk_datetime {
  year : Z; month : Z; day : Z;
  hour : Z; minute : Z; second : Z; microsecond : Z;
  aware : bool
}.

#[global] Instance datetime_eq_dec : EqDecision datetime.
Proof. solve_decision. Defined.

Definition datetime_fields (d : datetime) : Z * Z * Z * Z * Z * Z * Z * bool :=
  (year d, month d, day d, hour d, minute d, second d, microsecond d, aware d).

Definition datetime_of_fields (t : Z * Z * Z * Z * Z * Z * Z * bool) : datetime :=
  let '(y, mo, d, h, mi, s, us, a) := t in mk_datetime y mo d h mi s us a.

#[global] Instance datetime_countable : Countable datetime.
Proof.
  apply (inj_countable' datetime_fields datetime_of_fields).
  by intros [].
Defined.

(** Two naive datetimes, and two aware ones, compare field by field, most
    significant first. *)
Definition datetime_key (d : datetime) : list Z :=
  [year d; month d; day d; hour d; minute d; second d; microsecond d].

Fixpoint lex_leb (a b : list Z) : bool :=
  match a, b with
  | [], _ => true
  | _ :: _, [] => false
  | x :: a', y :: b' => (x <? y) || ((x =? y) && lex_leb a' b')
  end.

Definition datetime_le (a b : datetime) : Prop :=
  lex_leb (datetime_key a) (datetime_key b) = true.

#[global] Instance datetime_le_dec : RelDecision datetime_le.
Proof. intros a b. unfold datetime_le. apply _. Defined.

(** The values that flow through the two modules. *)
#[warnings="-register-all"]
Inductive pyval :=
  | PyNone
  | PyBool (b : bool)
  | PyInt (n : Z)
  | PyStr (s : string)
  | PyDatetime (d : datetime)
  | PyList (l : list pyval).

(** Truth value testing, as [if v:] and [v or w] do it.  A datetime is
    always true. *)
Definition truthy (v : pyval) : bool :=
  match v with
  | PyNone => false
  | PyBool b => b
  | PyInt n => negb (n =? 0)
  | PyStr s => negb (String.eqb s "")
  | PyDatetime _ => true
  | PyList l => match l with [] => false | _ => true end
  end.

(** ** Exceptions *)

Inductive exn :=
  | ValueError
  | OverflowError
  | KeyError (key : string)
  | IndexError
  | TypeError
  | MappingTypeError   (* the TypeError raised by map_field_value itself *)
  | ConnectionError
  | OtherError (name : string).

Inductive res (A : Type) :=
  | Ok (a : A)
  | Raise (e : exn).
Arguments Ok {A} a.
Arguments Raise {A} e.

(** Sequencing: an exception raised by the first step is the outcome.
    With these instances [x ← r; k] is stdpp's notation for it. *)
#[global] Instance res_ret : MRet res := λ A a, Ok a.

#[global] Instance res_bind : MBind res := λ A B k r,
  match r with
  | Ok a => k a
  | Raise e => Raise e
  end.

#[global] Instance res_fmap : FMap res := λ A B f r,
  match r with
  | Ok a => Ok (f a)
  | Raise e => Raise e
  end.

(** ** Characters and the two regular expressions *)

Definition chars (s : string) : list ascii := String.list_ascii_of_string s.
Definition str (l : list ascii) : string := String.string_of_list_ascii l.

Definition newline : ascii := ascii_of_nat 10.
Definition slash : ascii := ascii_of_nat 47.
Definition underscore : ascii := ascii_of_nat 95.

Definition is_newline (c : ascii) : bool := Ascii.eqb c newline.
Definition is_slash (c : ascii) : bool := Ascii.eqb c slash.

(** [.] matches every character but the newline; [.*] is greedy: it first
    takes the whole run, and gives characters back one by one. *)
Fixpoint dot_star_run (l : list ascii) : nat :=
  match l with
  | [] => 0%nat
  | c :: l' => if is_newline c then 0%nat else S (dot_star_run l')
  end.

(** What is left of the pattern (group, slash, group) once the first group
    holds [k] characters:
    a slash, then the second group, greedy as well, with nothing after it
    that could make it give anything back. *)
Definition RANGE_rest (l : list ascii) (k : nat) : option (string * string) :=
  match drop k l with
  | c :: after =>
      if is_slash c
      then Some (str (take k l), str (take (dot_star_run after) after))
      else None
  | [] => None
  end.

(** The first group tried at [k] characters, then [k - 1], ..., then none. *)
Fixpoint RANGE_backtrack (l : list ascii) (k : nat) : option (string * string) :=
  match RANGE_rest l k with
  | Some g => Some g
  | None =>
      match k with
      | O => None
      | S k' => RANGE_backtrack l k'
      end
  end.

(** [RANGE.match] anchored at the head of [l]. *)
Definition RANGE_match_at (l : list ascii) : option (string * string) :=
  RANGE_backtrack l (dot_star_run l).

(** [RANGE.search]: the leftmost position at which the pattern matches. *)
Fixpoint RANGE_search_from (l : list ascii) : option (string * string) :=
  match RANGE_match_at l with
  | Some g => Some g
  | None =>
      match l with
      | [] => None
      | _ :: l' => RANGE_search_from l'
      end
  end.

(** RANGE is the compiled pattern: a greedy dot-star group, a slash, a
    greedy dot-star group.  The result is [match.groups()]. *)
Definition RANGE_search (s : string) : option (string * string) :=
  RANGE_search_from (chars s).

(** ** date_parser.py *)

Section date_parser.

(** [dateutil.parser.parse(date, default=...)]: a datetime, or an
    exception.  dateutil reports text it cannot read with a [ValueError]
    (its [ParserError] is a subclass) and documents [OverflowError] too. *)
Variable parse : string → datetime → res datetime.

Definition default_date : datetime := mk_datetime 1978 1 1 0 0 0 0 false.

(** Only [ValueError] is handled; it is printed and [None] is returned.
    What is printed is not part of the model. *)
Definition get_date (date : string) : res (option datetime) :=
  match parse date default_date with
  | Ok parsed_date => Ok (Some parsed_date)
  | Raise ValueError => Ok None
  | Raise e => Raise e
  end.

(** The body of the [for] loop, on the set built so far.  [start and end]
    is true exactly when neither is [None]. *)
Definition get_dates_step (solr_dts : gset datetime) (date : pyval)
  : res (gset datetime) :=
  match date with
  | PyStr date =>
      match RANGE_search date with
      | Some (start_str, end_str) =>
          start ← get_date start_str ;
          end_ ← get_date end_str ;
          match start, end_ with
          | Some start, Some end_ => Ok (solr_dts ∪ ({[ start ]} ∪ {[ end_ ]}))
          | _, _ => Ok solr_dts
          end
      | None =>
          solr_date ← get_date date ;
          match solr_date with
          | Some solr_date => Ok (solr_dts ∪ {[ solr_date ]})
          | None => Ok solr_dts
          end
      end
  | _ => Ok solr_dts
  end.

Fixpoint get_dates_loop (solr_dts : gset datetime) (dates : list pyval)
  : res (gset datetime) :=
  match dates with
  | [] => Ok solr_dts
  | date :: rest =>
      solr_dts' ← get_dates_step solr_dts date ;
      get_dates_loop solr_dts' rest
  end.

(** [isinstance(dates, typing.Iterable)] and the elements iteration
    yields: a list yields its items, a string its characters. *)
Definition py_iter (v : pyval) : option (list pyval) :=
  match v with
  | PyList l => Some l
  | PyStr s => Some ((λ c, PyStr (str [c])) <$> chars s)
  | _ => None
  end.

(** The list holds an aware and a naive datetime. *)
Definition mixed (l : list datetime) : bool :=
  existsb aware l && existsb (λ d, negb (aware d)) l.

(** [sorted] on a set of datetimes.  The sort compares every element of a
    list of two or more with one of the others (its neighbour in a run, or
    an element of the sorted part it is inserted into, which is of one
    kind), so it raises [TypeError] exactly when the set holds an aware and
    a naive datetime; a set of one kind is put in ascending order. *)
Definition sorted (s : gset datetime) : res (list datetime) :=
  let l := elements s in
  if mixed l then Raise TypeError else Ok (merge_sort datetime_le l).

Definition get_dates (dates : pyval) : res (list datetime) :=
  match py_iter dates with
  | None => Ok []
  | Some elems =>
      solr_dts ← get_dates_loop ∅ elems ;
      sorted solr_dts
  end.

End date_parser.

(** The list object [get_dates] hands back. *)
Definition py_of_dates (l : list datetime) : pyval := PyList (PyDatetime <$> l).

(** A stand-in for dateutil on the simplest input: a token of four decimal
    digits is the year, and the remaining fields, and the absence of a time
    zone, come from [default].  Text that is not of that shape is refused
    with [ValueError]; the stand-in is only applied below to strings on
    which dateutil does the same. *)
Definition digit_value (c : ascii) : option Z :=
  let n := Z.of_nat (nat_of_ascii c) in
  if (48 <=? n) && (n <=? 57) then Some (n - 48) else None.

Definition bare_year_parse (date : string) (default : datetime) : res datetime :=
  match digit_value <$> chars date with
  | [Some a; Some b; Some c; Some d] =>
      Ok (mk_datetime (1000 * a + 100 * b + 10 * c + d) (month default) (day default)
            (hour default) (minute default) (second default) (microsecond default)
            (aware default))
  | _ => Raise ValueError
  end.

(** The same with one text that names a zone: "1924-06-01T00:00:00Z" is
    midnight of 1 June 1924 in UTC, an aware datetime. *)
Definition zoned_parse (date : string) (default : datetime) : res datetime :=
  if decide (date = "1924-06-01T00:00:00Z"%string)
  then Ok (mk_datetime 1924 6 1 0 0 0 0 true)
  else bare_year_parse date default.

(** ** feed_ursus.py: data *)

(** A DLCSRecord: column name to cell, a string or [None] (null). *)
Abbreviation Row := (gmap string (option string)).

(** An UrsusRecord: output field name to value. *)
Abbreviation UrsusRecord := (gmap string pyval).

(** The values of [mapper.FIELD_MAPPING]. *)
Inductive MappingRule :=
  | RuleNone
  | RuleCallable (f : Row → res pyval)
  | RuleColumn (csv_field : string)
  | RuleColumns (csv_fields : list string)
  | RuleOther.  (* anything else that is no Collection: a number, a generator *)

(** [pandas.DataFrame]: the column index and the rows in table order. *)
Record DataFrame := mk_DataFrame {
  df_columns : list string;
  df_rows : list Row
}.

(** The [config] dict: each of its three keys may be missing. *)
Record Config := mk_Config {
  collection_names : option (gmap (option string) (option string));
  controlled_fields : option (gmap string (gmap string string));
  data_frame : option DataFrame
}.

(** An insertion-ordered dict as the list of its items. *)
Fixpoint dict_get {K V} `{EqDecision K} (d : list (K * V)) (k : K) : option V :=
  match d with
  | [] => None
  | (k', v) :: d' => if decide (k' = k) then Some v else dict_get d' k
  end.

(** [d[k] = v]: an existing key keeps its place. *)
Fixpoint dict_set {K V} `{EqDecision K} (d : list (K * V)) (k : K) (v : V)
  : list (K * V) :=
  match d with
  | [] => [(k, v)]
  | (k', v') :: d' =>
      if decide (k' = k) then (k', v) :: d' else (k', v') :: dict_set d' k v
  end.

Definition py_of_cell (c : option string) : pyval :=
  match c with
  | Some s => PyStr s
  | None => PyNone
  end.

(** [record.get(key)] *)
Definition record_get (record : UrsusRecord) (key : string) : pyval :=
  default PyNone (record !! key).

(** ** feed_ursus.py: strings *)

Fixpoint is_prefix (p l : list ascii) : bool :=
  match p, l with
  | [], _ => true
  | _ :: _, [] => false
  | a :: p', b :: l' => Ascii.eqb a b && is_prefix p' l'
  end.

(** [str.split(sep)] for a non-empty [sep], left to right: [cur] is the
    fragment being read, [skip] counts the characters of a separator just
    recognised that are still to be passed over. *)
Fixpoint split_from (sep l : list ascii) (skip : nat) (cur : list ascii)
  : list string :=
  match l with
  | [] => [str cur]
  | c :: l' =>
      match skip with
      | S n => split_from sep l' n cur
      | O =>
          if is_prefix sep l
          then str cur :: split_from sep l' (length sep - 1) []
          else split_from sep l' 0 (cur ++ [c])
      end
  end.

Definition split (sep s : string) : list string :=
  split_from (chars sep) (chars s) 0 [].

Definition MARC_delimiter : string := "|~|".

(** [\w] on ASCII text: letters, digits and the underscore. *)
Definition is_word (c : ascii) : bool :=
  let n := nat_of_ascii c in
  ((48 <=? n) && (n <=? 57) || (65 <=? n) && (n <=? 90)
   || (97 <=? n) && (n <=? 122) || (n =? 95))%nat.

(** [\w+] is greedy: it starts from the whole run of word characters. *)
Fixpoint word_run (l : list ascii) : nat :=
  match l with
  | [] => 0%nat
  | c :: l' => if is_word c then S (word_run l') else 0%nat
  end.

(** [$]: the end of the string, or just before a newline that ends it. *)
Definition at_dollar (l : list ascii) : bool :=
  match l with
  | [] => true
  | [c] => is_newline c
  | _ => false
  end.

(** [\w+$] with the run tried at [k] characters, then [k - 1], ... down
    to one: the length that lets [$] match. *)
Fixpoint suffix_backtrack (l : list ascii) (k : nat) : option nat :=
  match k with
  | O => None
  | S k' => if at_dollar (drop k l) then Some k else suffix_backtrack l k'
  end.

(** The pattern [_\w+$] anchored at the head of [l]: the length matched. *)
Definition suffix_match_at (l : list ascii) : option nat :=
  match l with
  | c :: l' =>
      if Ascii.eqb c underscore
      then S <$> suffix_backtrack l' (word_run l')
      else None
  | [] => None
  end.

(** [re.sub] with the empty replacement: the leftmost match is cut out.
    What follows a match is empty or a single newline, where the pattern
    cannot match again, so it is kept as it is. *)
Fixpoint sub_suffix (l : list ascii) : list ascii :=
  match suffix_match_at l with
  | Some n => drop n l
  | None =>
      match l with
      | [] => []
      | c :: l' => c :: sub_suffix l'
      end
  end.

Definition strip_suffix (field_name : string) : string :=
  str (sub_suffix (chars field_name)).

(** ** feed_ursus.py: the manifest *)

(** A parsed JSON document ([response.json()]); an object is the list of
    its items. *)
#[warnings="-register-all"]
Inductive json :=
  | JNull
  | JBool (b : bool)
  | JNum (n : Z)
  | JStr (s : string)
  | JArr (l : list json)
  | JObj (items : list (string * json)).

Record Response := mk_Response { response_json : res json }.

(** [v[key]] for a string key. *)
Definition json_getitem (v : json) (key : string) : res json :=
  match v with
  | JObj items =>
      match dict_get items key with
      | Some x => Ok x
      | None => Raise (KeyError key)
      end
  | _ => Raise TypeError
  end.

(** [v[0]] *)
Definition json_first (v : json) : res json :=
  match v with
  | JArr (x :: _) => Ok x
  | JArr [] => Raise IndexError
  | JStr s =>
      match chars s with
      | c :: _ => Ok (JStr (str [c]))
      | [] => Raise IndexError
      end
  | JObj _ => Raise (KeyError "0")
  | _ => Raise TypeError
  end.

(** [for x in v] *)
Definition json_iter (v : json) : res (list json) :=
  match v with
  | JArr l => Ok l
  | JObj items => Ok ((λ kv, JStr kv.1) <$> items)
  | JStr s => Ok ((λ c, JStr (str [c])) <$> chars s)
  | _ => Raise TypeError
  end.

(** Dict keys: what a hashable JSON value is equal to as a key
    ([True == 1] and [False == 0]). *)
Inductive hkey :=
  | KNull
  | KNum (n : Z)
  | KStr (s : string).

#[global] Instance hkey_eq_dec : EqDecision hkey.
Proof. solve_decision. Defined.

Definition json_hash (v : json) : res hkey :=
  match v with
  | JNull => Ok KNull
  | JBool b => Ok (KNum (if b then 1 else 0))
  | JNum n => Ok (KNum n)
  | JStr s => Ok (KStr s)
  | JArr _ | JObj _ => Raise TypeError
  end.

Definition json_truthy (v : json) : bool :=
  match v with
  | JNull => false
  | JBool b => b
  | JNum n => negb (n =? 0)
  | JStr s => negb (String.eqb s "")
  | JArr l => match l with [] => false | _ => true end
  | JObj items => match items with [] => false | _ => true end
  end.

(** [v + suffix] for a string [suffix] *)
Definition json_add_str (v : json) (suffix : string) : res string :=
  match v with
  | JStr s => Ok (s +:+ suffix)
  | _ => Raise TypeError
  end.

(** ** feed_ursus.py: effects *)

(** A computation that may raise and may call [requests.get]: it is given
    the URLs requested so far and returns them with its own added. *)
Definition io (A : Type) : Type := list string → res A * list string.

#[global] Instance io_ret : MRet io := λ A a log, (Ok a, log).

#[global] Instance io_bind : MBind io := λ A B k m log,
  match m log with
  | (Ok a, log') => k a log'
  | (Raise e, log') => (Raise e, log')
  end.

Definition lift {A} (r : res A) : io A := λ log, (r, log).

(** [try: m  except: return handler] with a bare [except]. *)
Definition try_except {A} (m : io A) (handler : A) : io A := λ log,
  match m log with
  | (Raise _, log') => (Ok handler, log')
  | done => done
  end.

(** Running a computation from an empty request log. *)
Definition run {A} (m : io A) : res A * list string := m [].

(** ** feed_ursus.py: the functions *)

Section feed_ursus.

(** [mapper.FIELD_MAPPING], an ordered dict; [mapper.thumbnail_url];
    [requests.get]; and pandas' [Series == value] for a value that is not
    a string. *)
Variable FIELD_MAPPING : list (string * MappingRule).
Variable thumbnail_url : Row → res pyval.
Variable requests_get : string → res Response.
Variable series_eq : list (option string) → pyval → res (list bool).

(** [terms.get(value, value)] when the base name is a controlled field. *)
Definition controlled_terms (config : Config) (field_name : string)
  : option (gmap string string) :=
  let field_name_without_suffix := strip_suffix field_name in
  default ∅ (controlled_fields config) !! field_name_without_suffix.

(** The [for csv_field in mapping] loop, started at [output]. *)
Fixpoint extend_columns (row : Row) (mapping : list string) (output : list string)
  : list string :=
  match mapping with
  | [] => output
  | csv_field :: rest =>
      let output :=
        match row !! csv_field with
        | Some (Some input_value) =>
            if negb (String.eqb input_value "")
            then output ++ split MARC_delimiter input_value
            else output
        | _ => output
        end in
      extend_columns row rest output
  end.

(** [map_field_value] from the loop to the end, for a list of columns. *)
Definition map_columns (row : Row) (field_name : string) (config : Config)
    (mapping : list string) : list string :=
  let output := extend_columns row mapping [] in
  let output :=
    match controlled_terms config field_name with
    | Some terms => (λ value, default value (terms !! value)) <$> output
    | None => output
    end in
  filter (λ value, value ≠ ""%string) output.

Definition py_str_list (l : list string) : pyval := PyList (PyStr <$> l).

Definition map_field_value (row : Row) (field_name : string) (config : Config)
  : res pyval :=
  match dict_get FIELD_MAPPING field_name with
  | None => Raise (KeyError field_name)
  | Some RuleNone => Ok PyNone
  | Some (RuleCallable mapping) => mapping row
  | Some (RuleColumn mapping) =>
      Ok (py_str_list (map_columns row field_name config [mapping]))
  | Some (RuleColumns mapping) =>
      Ok (py_str_list (map_columns row field_name config mapping))
  | Some RuleOther => Raise MappingTypeError
  end.

(** [data[column]]: the cells of a column, or [KeyError]. *)
Definition df_column (data : DataFrame) (column : string) : res (list (option string)) :=
  if decide (column ∈ df_columns data)
  then Ok ((λ row : Row, default None (row !! column)) <$> df_rows data)
  else Raise (KeyError column).

(** [data[column] == value], a boolean mask. *)
Definition df_mask (data : DataFrame) (column : string) (value : pyval)
  : res (list bool) :=
  cells ← df_column data column;
  match value with
  | PyStr s => Ok ((λ c, bool_decide (c = Some s)) <$> cells)
  | _ => series_eq cells value
  end.

(** [data[mask]] *)
Definition df_select (data : DataFrame) (mask : list bool) : DataFrame :=
  mk_DataFrame (df_columns data)
    (fst <$> filter (λ rb : Row * bool, rb.2 = true) (zip (df_rows data) mask)).

(** The loop over [representative.iterrows()]. *)
Fixpoint first_thumbnail (rows : list Row) : res pyval :=
  match rows with
  | [] => Ok PyNone
  | row :: rest =>
      thumb ← thumbnail_url row;
      if truthy thumb then Ok thumb else first_thumbnail rest
  end.

Definition thumbnail_from_child (record : UrsusRecord) (config : Config)
  : res pyval :=
  match data_frame config with
  | None => Ok PyNone
  | Some data =>
      ark ← match record !! "ark_ssi" with
            | Some ark => Ok ark
            | None => Raise (KeyError "ark_ssi")
            end;
      mask ← df_mask data "Parent ARK" ark;
      let children := df_select data mask in
      mask ← df_mask children "Title" (PyStr "f. 001r");
      let representative := df_select children mask in
      let representative :=
        if decide (length (df_rows representative) = 0%nat)
        then children else representative in
      first_thumbnail (df_rows representative)
  end.

(** The dict comprehension over the canvases of one sequence, continuing
    the dict [canvases]. *)
Fixpoint add_canvases (canvases : list (hkey * json)) (cs : list json)
  : res (list (hkey * json)) :=
  match cs with
  | [] => Ok canvases
  | c :: rest =>
      label ← json_getitem c "label";
      images ← json_getitem c "images";
      image ← json_first images;
      resource ← json_getitem image "resource";
      service ← json_getitem resource "service";
      id ← json_getitem service "@id";
      key ← json_hash label;
      add_canvases (dict_set canvases key id) rest
  end.

Fixpoint add_sequences (canvases : list (hkey * json)) (seqs : list json)
  : res (list (hkey * json)) :=
  match seqs with
  | [] => Ok canvases
  | seq :: rest =>
      cs ← json_getitem seq "canvases";
      cs ← json_iter cs;
      canvases ← add_canvases canvases cs;
      add_sequences canvases rest
  end.

Definition IIIF_suffix : string := "/full/!200,200/0/default.jpg".

(** From the manifest to the URL: the part of the [try] block after
    [response.json()]. *)
Definition thumbnail_of_manifest (manifest : json) : res pyval :=
  seqs ← json_getitem manifest "sequences";
  seqs ← json_iter seqs;
  canvases ← add_sequences [] seqs;
  chosen ← match dict_get canvases (KStr "f. 001r") with
           | Some v => if json_truthy v then Ok v else
                         match canvases with
                         | (_, first) :: _ => Ok first
                         | [] => Raise IndexError
                         end
           | None => match canvases with
                     | (_, first) :: _ => Ok first
                     | [] => Raise IndexError
                     end
           end;
  url ← json_add_str chosen IIIF_suffix;
  Ok (PyStr url).

(** [requests.get(manifest_url)]: the request is recorded, whatever comes
    of it. *)
Definition http_get (url : string) : io Response :=
  λ log, (requests_get url, log ++ [url]).

Definition thumbnail_from_manifest (record : UrsusRecord) : io pyval :=
  try_except
    (match record_get record "iiif_manifest_url_ssi" with
     | PyStr manifest_url =>
         response ← http_get manifest_url;
         manifest ← lift (response_json response);
         lift (thumbnail_of_manifest manifest)
     | _ => mret PyNone
     end)
    PyNone.

(** The dict comprehension of [map_record], field by field. *)
Fixpoint base_pass (row : Row) (config : Config) (fields : list string)
    (record : UrsusRecord) : res UrsusRecord :=
  match fields with
  | [] => Ok record
  | field_name :: rest =>
      value ← map_field_value row field_name config;
      base_pass row config rest (<[field_name := value]> record)
  end.

(** [a or b or c] of the thumbnail assignment: the fallbacks run only
    when what stands before them is false. *)
Definition resolve_thumbnail (record : UrsusRecord) (config : Config) : io pyval :=
  let explicit := record_get record "thumbnail_url_ss" in
  if truthy explicit then mret explicit
  else
    from_child ← lift (thumbnail_from_child record config);
    if truthy from_child then mret from_child
    else thumbnail_from_manifest record.

Definition collection_name (row : Row) (config : Config) (record : UrsusRecord)
  : res UrsusRecord :=
  match row !! "Parent ARK" with
  | None => Ok record
  | Some parent =>
      match collection_names config with
      | None => Raise (KeyError "collection_names")
      | Some names =>
          match names !! parent with
          | Some dlcs_collection_name =>
              Ok (<["dlcs_collection_name_tesim" :=
                      PyList [py_of_cell dlcs_collection_name]]> record)
          | None => Ok record
          end
      end
  end.

(** [record[facet] = record.get(display)] *)
Definition mirror (facet display : string) (record : UrsusRecord) : UrsusRecord :=
  <[facet := record_get record display]> record.

Definition facet_fields (record : UrsusRecord) : UrsusRecord :=
  let record := mirror "genre_sim" "genre_tesim" record in
  let record := mirror "human_readable_language_sim" "language_tesim" record in
  let record := mirror "human_readable_resource_type_sim" "resource_type_tesim" record in
  let record := mirror "location_sim" "location_tesim" record in
  let record := mirror "member_of_collections_ssim" "dlcs_collection_name_tesim" record in
  let record := mirror "named_subject_sim" "named_subject_tesim" record in
  let record := mirror "subject_sim" "subject_tesim" record in
  mirror "year_isim" "year_tesim" record.

Definition map_record (row : Row) (config : Config) : io UrsusRecord :=
  record ← lift (base_pass row config (fst <$> FIELD_MAPPING) ∅);
  thumbnail ← resolve_thumbnail record config;
  let record := <["thumbnail_url_ss" := thumbnail]> record in
  record ← lift (collection_name row config record);
  mret (facet_fields record).

End feed_ursus.

(** ** Vocabulary of the statements *)

(** Two outcomes agree when both are the same value, or both are an
    exception. *)
Definition agree {A} (r r' : res A) : Prop :=
  match r, r' with
  | Ok a, Ok b => a = b
  | Raise _, Raise _ => True
  | _, _ => False
  end.

Definition is_ok {A} (r : res A) : Prop :=
  match r with
  | Ok _ => True
  | Raise _ => False
  end.

(** Where [RANGE.search] cuts a text [l] into the groups [a] and [b]: [a]
    and [b] lie on one line around a slash, [b] has no slash, and nothing
    before that line has one. *)
Definition range_split (l a b : list ascii) : Prop :=
  ∃ pre post,
    l = pre ++ a ++ slash :: b ++ post ∧
    (slash ∉ pre) ∧ (slash ∉ b) ∧ (newline ∉ a) ∧ (newline ∉ b) ∧
    (pre = [] ∨ last pre = Some newline) ∧
    (post = [] ∨ head post = Some newline).





(** [sep.join(pieces)] on lists of characters. *)
Fixpoint join (sep : list ascii) (pieces : list (list ascii)) : list ascii :=
  match pieces with
  | [] => []
  | [piece] => piece
  | piece :: rest => piece ++ sep ++ join sep rest
  end.

(** The datetimes of the reference vectors. *)
Definition d1923 : datetime := mk_datetime 1923 1 1 0 0 0 0 false.
Definition d1925 : datetime := mk_datetime 1925 1 1 0 0 0 0 false.

(** The fragments of one cell, as the documentation of [map_field_value]
    states them: none for a missing or empty cell, the pieces between the
    delimiters otherwise. *)
Definition cell_fragments (row : Row) (csv_field : string) : list string :=
  match row !! csv_field with
  | Some (Some input_value) =>
      if decide (input_value = ""%string) then [] else split MARC_delimiter input_value
  | _ => []
  end.

(** The columns a rule names. *)
Definition rule_columns (rule : MappingRule) : option (list string) :=
  match rule with
  | RuleColumn csv_field => Some [csv_field]
  | RuleColumns csv_fields => Some csv_fields
  | _ => None
  end.

(** The display term of a fragment: the term of the table when the fragment
    is one of its ids, the fragment itself otherwise. *)
Definition resolve_term (terms : option (gmap string string)) (value : string) : string :=
  match terms with
  | Some terms => default value (terms !! value)
  | None => value
  end.

(** Inputs on which [map_record] has no reason to raise: every rule of the
    schema is of a known shape and its function, if it has one, returns;
    the collection index is there when the row has a parent; and when the
    table of all rows is given, the record has its own identifier, the
    table has the two columns the child lookup reads, and the library
    calls made on it return. *)
Definition valid_inputs (FIELD_MAPPING : list (string * MappingRule))
    (thumbnail_url : Row → res pyval)
    (series_eq : list (option string) → pyval → res (list bool))
    (row : Row) (config : Config) : Prop :=
  (∀ field_name rule, dict_get FIELD_MAPPING field_name = Some rule →
     rule ≠ RuleOther ∧ ∀ f, rule = RuleCallable f → is_ok (f row)) ∧
  (is_Some (row !! "Parent ARK") → is_Some (collection_names config)) ∧
  (∀ data, data_frame config = Some data →
     "ark_ssi" ∈ FIELD_MAPPING.*1 ∧
     "Parent ARK" ∈ df_columns data ∧ "Title" ∈ df_columns data ∧
     (∀ r, is_ok (thumbnail_url r)) ∧
     (∀ cells value, is_ok (series_eq cells value))).

(** ** Sample data *)

(** A schema with a date column, an explicit thumbnail column and the
    manifest URL taken over by a function. *)
Definition manifest_url_of (row : Row) : res pyval :=
  Ok (py_of_cell (default None (row !! "IIIF Manifest URL"))).

Definition sample_mapping : list (string * MappingRule) :=
  [("year_tesim"%string, RuleColumn "Date");
   ("thumbnail_url_ss"%string, RuleColumn "Thumbnail URL");
   ("iiif_manifest_url_ssi"%string, RuleCallable manifest_url_of)].

Definition sample_row : Row :=
  {[ "Date" := Some "1923/1925"%string;
     "IIIF Manifest URL" := Some "https://iiif.example/manifest"%string ]}.

Definition sample_config : Config := mk_Config (Some ∅) None None.

(** A manifest with one canvas, not labelled "f. 001r". *)
Definition sample_image : json :=
  JObj [("resource"%string,
         JObj [("service"%string,
                JObj [("@id"%string, JStr "https://iiif.example/img1")])])].

Definition sample_canvas : json :=
  JObj [("label"%string, JStr "f. 002r"); ("images"%string, JArr [sample_image])].

Definition sample_manifest : json :=
  JObj [("sequences"%string, JArr [JObj [("canvases"%string, JArr [sample_canvas])]])].

Definition sample_web (url : string) : res Response :=
  Ok (mk_Response (Ok sample_manifest)).

Definition offline (url : string) : res Response := Raise ConnectionError.

Definition no_thumbnail_url (row : Row) : res pyval := Ok PyNone.

Definition no_series_eq (cells : list (option string)) (value : pyval)
  : res (list bool) := Raise ValueError.

(** A row with a thumbnail of its own, and a config that has the table of
    all rows: the sample schema has no "ark_ssi", so that the child lookup
    raises on every record. *)
Definition thumb_row : Row :=
  {[ "Date" := Some "1923"%string;
     "Thumbnail URL" := Some "https://iiif.example/thumb.jpg"%string ]}.

Definition thumb_config : Config :=
  mk_Config (Some ∅) None (Some (mk_DataFrame [] [])).

(** [map_record] on the sample row, with the sample manifest on the web. *)
Definition sample_out : res UrsusRecord * list string :=
  run (map_record sample_mapping no_thumbnail_url sample_web no_series_eq
         sample_row sample_config).

(** ** Vocabulary of the further statements *)

(** What one element of the input stands for: the datetime [x] is the
    reading of the whole element when it has no slash, or of one side of
    the range when both sides are read. *)
Definition reads (parse : string → datetime → res datetime) (date : pyval)
    (x : datetime) : Prop :=
  ∃ s, date = PyStr s ∧
    match RANGE_search s with
    | Some (start_str, end_str) =>
        ∃ start end_,
          parse start_str default_date = Ok start ∧
          parse end_str default_date = Ok end_ ∧ (x = start ∨ x = end_)
    | None => parse s default_date = Ok x
    end.


Definition is_str (v : pyval) : bool :=
  match v with
  | PyStr _ => true
  | _ => false
  end.

(** [sep] occurs in [l]. *)
Definition occurs (sep l : list ascii) : Prop := ∃ a b, l = a ++ sep ++ b.

(** The facet fields and the display fields they are copied from. *)
Definition facet_pairs : list (string * string) :=
  [("genre_sim", "genre_tesim");
   ("human_readable_language_sim", "language_tesim");
   ("human_readable_resource_type_sim", "resource_type_tesim");
   ("location_sim", "location_tesim");
   ("member_of_collections_ssim", "dlcs_collection_name_tesim");
   ("named_subject_sim", "named_subject_tesim");
   ("subject_sim", "subject_tesim");
   ("year_isim", "year_tesim")]%string.

(** The keys [map_record] assigns after the base pass. *)
Definition derived_fields : list string :=
  ["thumbnail_url_ss"; "dlcs_collection_name_tesim"]%string ++ facet_pairs.*1.

(** The rows of the table that are children of [ark], and among rows those
    titled as the first leaf. *)
Definition children_of (data : DataFrame) (ark : string) : list Row :=
  filter (λ row : Row, default None (row !! "Parent ARK"%string) = Some ark)
    (df_rows data).

Definition first_leaves (rows : list Row) : list Row :=
  filter (λ row : Row, default None (row !! "Title"%string) = Some "f. 001r"%string)
    rows.

(** A canvas of a manifest, read as the code reads it: its label and the
    identifier of the image service of its first image. *)
Definition is_canvas (c : json) (label id : string) : Prop :=
  json_getitem c "label" = Ok (JStr label) ∧
  ∃ images image resource service,
    json_getitem c "images" = Ok images ∧
    json_first images = Ok image ∧
    json_getitem image "resource" = Ok resource ∧
    json_getitem resource "service" = Ok service ∧
    json_getitem service "@id" = Ok (JStr id).

Definition is_sequence (seq : json) (canvases : list (string * string)) : Prop :=
  ∃ cs, json_getitem seq "canvases" = Ok (JArr cs) ∧
        Forall2 (λ c p, is_canvas c p.1 p.2) cs canvases.

(** A manifest whose sequences hold the canvases [seqs], as pairs of a
    label and an identifier. *)
Definition is_manifest (manifest : json) (seqs : list (list (string * string)))
  : Prop :=
  ∃ ss, json_getitem manifest "sequences" = Ok (JArr ss) ∧
        Forall2 is_sequence ss seqs.

(** The identifier of the last canvas labelled [label]. *)
Definition last_id (canvases : list (string * string)) (label : string)
  : option string :=
  dict_get (reverse canvases) label.

(** The canvas the thumbnail is taken from: the one labelled "f. 001r" when
    its identifier is not empty, the one that has the label of the first
    canvas otherwise. *)
Definition choose_canvas (canvases : list (string * string)) : option string :=
  let first :=
    match canvases with
    | [] => None
    | (label, _) :: _ => last_id canvases label
    end in
  match last_id canvases "f. 001r" with
  | Some id => if decide (id = ""%string) then first else Some id
  | None => first
  end.

(** The dict of the comprehension, from the canvases in order. *)
Definition canvases_dict (d : list (hkey * json)) (canvases : list (string * string))
  : list (hkey * json) :=
  foldl (λ d p, dict_set d (KStr p.1) (JStr p.2)) d canvases.

(** ** feed_ursus.py: load_csv *)

(** What [load_csv] sends out: text on standard output, documents to the
    index. *)
Inductive output :=
  | Printed (text : string)
  | SolrAdd (docs : list UrsusRecord).

(** [print(value, end=end_)] of a text. *)
Definition python_print (value end_ : string) : output := Printed (value +:+ end_).

Definition end_of_line : string := str [newline].

(** [row["Object Type"] in ("ChildWork", "Page")] *)
Definition is_child_row (row : Row) : bool :=
  match default None (row !! "Object Type"%string) with
  | Some object_type =>
      bool_decide (object_type = "ChildWork"%string ∨ object_type = "Page"%string)
  | None => false
  end.

(** The dict comprehension of the collection names: [row["Item ARK"]] and
    [row["Title"]] raise when the table has no such column. *)
Fixpoint collection_index (columns : list string) (collection_rows : list Row)
    (names : gmap (option string) (option string))
  : res (gmap (option string) (option string)) :=
  match collection_rows with
  | [] => Ok names
  | row :: rest =>
      if decide ("Item ARK"%string ∈ columns) then
        if decide ("Title"%string ∈ columns) then
          collection_index columns rest
            (<[default None (row !! "Item ARK"%string) :=
                 default None (row !! "Title"%string)]> names)
        else Raise (KeyError "Title")
      else Raise (KeyError "Item ARK")
  end.

Section load_csv.

Variable FIELD_MAPPING : list (string * MappingRule).
Variable thumbnail_url : Row → res pyval.
Variable requests_get : string → res Response.
Variable series_eq : list (option string) → pyval → res (list bool).

(** [pandas.read_csv] followed by the replacement of the missing values by
    [None]; [load_field_config], which reads the vocabulary files;
    [Solr.add]; and the text [print] writes for a record. *)
Variable read_csv : string → res DataFrame.
Variable load_field_config : string → res (gmap string (gmap string string)).
Variable solr_add : list UrsusRecord → res unit.
Variable repr : UrsusRecord → string.

(** The [for] loop over the rows: [out] is what was sent out so far, [log]
    the requests made so far.  The result holds the exception that ended
    the loop, if any. *)
Fixpoint load_rows (solr_client : bool) (config : Config) (rows : list Row)
    (first_row : bool) (out : list output) (log : list string)
  : option exn * list output * list string :=
  match rows with
  | [] => (None, out, log)
  | row :: rest =>
      if is_child_row row then load_rows solr_client config rest first_row out log
      else
        let out :=
          if first_row then out
          else if solr_client then out
          else out ++ [python_print ", " end_of_line] in
        match map_record FIELD_MAPPING thumbnail_url requests_get series_eq
                row config log with
        | (Raise e, log) => (Some e, out, log)
        | (Ok mapped_record, log) =>
            if solr_client then
              match solr_add [mapped_record] with
              | Raise e => (Some e, out, log)
              | Ok _ =>
                  load_rows solr_client config rest false
                    (out ++ [SolrAdd [mapped_record]]) log
              end
            else
              load_rows solr_client config rest false
                (out ++ [python_print (repr mapped_record) ""]) log
        end
  end.

(** [solr_url] is [None] or a text; the client exists when it is a
    non-empty text. *)
Definition load_csv (filename : string) (solr_url : option string)
  : option exn * list output * list string :=
  let solr_client := truthy (py_of_cell solr_url) in
  match read_csv filename with
  | Raise e => (Some e, [], [])
  | Ok data_frame =>
      match df_mask series_eq data_frame "Object Type" (PyStr "Collection") with
      | Raise e => (Some e, [], [])
      | Ok mask =>
          let collection_rows := df_select data_frame mask in
          match collection_index (df_columns collection_rows)
                  (df_rows collection_rows) ∅ with
          | Raise e => (Some e, [], [])
          | Ok names =>
              match load_field_config "./fields" with
              | Raise e => (Some e, [], [])
              | Ok fields =>
                  let config := mk_Config (Some names) (Some fields) (Some data_frame) in
                  let out := if solr_client then [] else [python_print "[" ""] in
                  match load_rows solr_client config (df_rows data_frame) true out [] with
                  | (Some e, out, log) => (Some e, out, log)
                  | (None, out, log) =>
                      (None,
                       if solr_client then out
                       else out ++ [python_print "]" end_of_line],
                       log)
                  end
              end
          end
      end
  end.

End load_csv.

(** The text on standard output. *)
Fixpoint text_of (out : list output) : string :=
  match out with
  | [] => ""
  | Printed text :: rest => text +:+ text_of rest
  | SolrAdd _ :: rest => text_of rest
  end.

(** The rows [load_csv] maps: all but the child works and the pages. *)
Definition mapped_rows (rows : list Row) : list Row :=
  filter (λ row, is_child_row row = false) rows.

(** [map_record] on each row in turn, up to the first exception. *)
Fixpoint map_all (FIELD_MAPPING : list (string * MappingRule))
    (thumbnail_url : Row → res pyval) (requests_get : string → res Response)
    (series_eq : list (option string) → pyval → res (list bool))
    (config : Config) (rows : list Row) (log : list string)
  : res (list UrsusRecord) * list string :=
  match rows with
  | [] => (Ok [], log)
  | row :: rest =>
      match map_record FIELD_MAPPING thumbnail_url requests_get series_eq
              row config log with
      | (Raise e, log) => (Raise e, log)
      | (Ok record, log) =>
          match map_all FIELD_MAPPING thumbnail_url requests_get series_eq
                  config rest log with
          | (Raise e, log) => (Raise e, log)
          | (Ok records, log) => (Ok (record :: records), log)
          end
      end
  end.

(** The config [load_csv] builds from the table and the vocabularies. *)
Definition config_of (data_frame : DataFrame)
    (names : gmap (option string) (option string))
    (fields : gmap string (gmap string string)) : Config :=
  mk_Config (Some names) (Some fields) (Some data_frame).

(** What is printed for the records, one after the other: a separator
    before each record but the first. *)
Fixpoint printed (repr : UrsusRecord → string) (first_row : bool)
    (records : list UrsusRecord) : list output :=
  match records with
  | [] => []
  | record :: rest =>
      (if first_row then [] else [python_print ", " end_of_line]) ++
      [python_print (repr record) ""] ++ printed repr false rest
  end.

Definition is_printed (o : output) : Prop :=
  match o with
  | Printed _ => True
  | SolrAdd _ => False
  end.

(** ** A sample table *)

Definition sample_columns : list string :=
  ["Item ARK"; "Parent ARK"; "Title"; "Object Type"; "Thumbnail"]%string.

Definition table_row (ark : string) (parent : option string) (title object_type : string)
    (thumbnail : option string) : Row :=
  {[ "Item ARK"%string := Some ark; "Parent ARK"%string := parent;
     "Title"%string := Some title; "Object Type"%string := Some object_type;
     "Thumbnail"%string := thumbnail ]}.

Definition collection_row : Row :=
  table_row "ark:/1/c" None "Maps" "Collection" None.
Definition work_row : Row :=
  table_row "ark:/1/w" (Some "ark:/1/c"%string) "Atlas" "Work" None.
Definition verso_row : Row :=
  table_row "ark:/1/p1" (Some "ark:/1/w"%string) "f. 001v" "Page"
    (Some "https://iiif.example/p1"%string).
Definition recto_row : Row :=
  table_row "ark:/1/p2" (Some "ark:/1/w"%string) "f. 001r" "Page"
    (Some "https://iiif.example/p2"%string).

Definition sample_table : DataFrame :=
  mk_DataFrame sample_columns [collection_row; work_row; verso_row; recto_row].

Definition item_ark_of (row : Row) : res pyval :=
  Ok (py_of_cell (default None (row !! "Item ARK"%string))).

Definition thumbnail_column (row : Row) : res pyval :=
  Ok (py_of_cell (default None (row !! "Thumbnail"%string))).

Definition table_mapping : list (string * MappingRule) :=
  [("ark_ssi"%string, RuleCallable item_ark_of);
   ("title_tesim"%string, RuleColumn "Title")].

Definition table_config : Config :=
  mk_Config (Some {[ Some "ark:/1/c"%string := Some "Maps"%string ]}) (Some ∅)
    (Some sample_table).

(** [map_record] on the work of the sample table. *)
Definition work_out : res UrsusRecord * list string :=
  run (map_record table_mapping thumbnail_column offline no_series_eq
         work_row table_config).

Definition sample_read_csv (filename : string) : res DataFrame := Ok sample_table.
Definition no_fields (path : string) : res (gmap string (gmap string string)) := Ok ∅.
Definition solr_accepts (docs : list UrsusRecord) : res unit := Ok ().
Definition sample_repr (record : UrsusRecord) : string :=
  match record !! "title_tesim"%string with
  | Some (PyList [PyStr title]) => title
  | _ => "?"
  end.

(** [load_csv] on the sample table, printing and indexing. *)
Definition sample_print : option exn * list output * list string :=
  load_csv table_mapping thumbnail_column offline no_series_eq sample_read_csv
    no_fields solr_accepts sample_repr "sample.csv" None.

Definition sample_index : option exn * list output * list string :=
  load_csv table_mapping thumbnail_column offline no_series_eq sample_read_csv
    no_fields solr_accepts sample_repr "sample.csv" (Some "http://localhost:8983/solr/ursus"%string).

(** * Facts *)

(** ** Characters *)

Lemma chars_str l : chars (str l) = l.
Proof. apply String.list_ascii_of_string_of_list_ascii. Qed.

Lemma str_chars s : str (chars s) = s.
Proof. apply String.string_of_list_ascii_of_string. Qed.

Lemma is_slash_true c : is_slash c = true ↔ c = slash.
Proof. unfold is_slash. apply Ascii.eqb_eq. Qed.

Lemma is_newline_true c : is_newline c = true ↔ c = newline.
Proof. unfold is_newline. apply Ascii.eqb_eq. Qed.

Lemma slash_not_newline : slash ≠ newline.
Proof. discriminate. Qed.

(** The run of a greedy dot-star: no newline inside, and a newline or the
    end of the text right after it. *)
Lemma dot_star_run_le l : (dot_star_run l ≤ length l)%nat.
Proof. induction l as [|c l IH]; simpl; [lia|]. destruct (is_newline c); simpl; lia. Qed.

Lemma dot_star_run_lookup l i :
  (i < dot_star_run l)%nat → ∃ c, l !! i = Some c ∧ c ≠ newline.
Proof.
  revert i. induction l as [|c l IH]; intros i Hi; simpl in *; [lia|].
  destruct (is_newline c) eqn:Hc; [lia|].
  destruct i as [|i]; simpl.
  - exists c. split; [done|]. intros ->. by rewrite (proj2 (is_newline_true newline)) in Hc.
  - apply IH. lia.
Qed.

Lemma dot_star_run_stop l :
  l !! dot_star_run l = None ∨ l !! dot_star_run l = Some newline.
Proof.
  induction l as [|c l IH]; simpl; [by left|].
  destruct (is_newline c) eqn:Hc; simpl; [|done].
  right. by apply is_newline_true in Hc as ->.
Qed.

Lemma dot_star_run_no_newline l : newline ∉ take (dot_star_run l) l.
Proof.
  intros [i Hi]%list_elem_of_lookup.
  apply lookup_take_Some in Hi as [Hi Hlt].
  destruct (dot_star_run_lookup l i Hlt) as (c & Hc & Hne).
  rewrite Hi in Hc. apply Hne. symmetry. by injection Hc.
Qed.

(** Inside the run, the run of what is left is what is left of the run. *)
Lemma dot_star_run_drop l j :
  (j ≤ dot_star_run l)%nat → dot_star_run (drop j l) = (dot_star_run l - j)%nat.
Proof.
  revert j. induction l as [|c l IH]; intros j Hj; simpl in *.
  - by rewrite drop_nil.
  - destruct j as [|j]; simpl; [lia|].
    destruct (is_newline c); [lia|]. apply IH. lia.
Qed.

Lemma RANGE_rest_Some l k g :
  RANGE_rest l k = Some g →
  l !! k = Some slash ∧
  g = (str (take k l), str (take (dot_star_run (drop (S k) l)) (drop (S k) l))).
Proof.
  unfold RANGE_rest. intros H.
  destruct (drop k l) as [|c after] eqn:Hd; [done|].
  destruct (is_slash c) eqn:Hc; [|done].
  apply is_slash_true in Hc as ->.
  assert (l !! k = Some slash) as Hk.
  { rewrite <-(Nat.add_0_r k), <-lookup_drop, Hd. done. }
  split; [done|].
  assert (drop (S k) l = after) as ->.
  { replace (S k) with (k + 1)%nat by lia. by rewrite <-drop_drop, Hd. }
  congruence.
Qed.

Lemma RANGE_rest_None l k : RANGE_rest l k = None → l !! k ≠ Some slash.
Proof.
  unfold RANGE_rest. intros H Hk.
  rewrite <-(Nat.add_0_r k), <-lookup_drop in Hk.
  destruct (drop k l) as [|c after]; [done|]. simpl in Hk.
  injection Hk as ->. by rewrite (proj2 (is_slash_true slash)) in H.
Qed.

Lemma RANGE_backtrack_Some l k g :
  RANGE_backtrack l k = Some g →
  ∃ j, (j ≤ k)%nat ∧ RANGE_rest l j = Some g ∧
       ∀ i, (j < i ≤ k)%nat → l !! i ≠ Some slash.
Proof.
  induction k as [|k IH]; simpl; intros H.
  - destruct (RANGE_rest l 0) eqn:Hr; [|done].
    exists 0%nat. split; [lia|]. split; [congruence|]. intros i Hi. lia.
  - destruct (RANGE_rest l (S k)) eqn:Hr.
    + exists (S k). split; [lia|]. split; [congruence|]. intros i Hi. lia.
    + destruct (IH H) as (j & Hj & Hg & Hno).
      exists j. split; [lia|]. split; [done|].
      intros i Hi. destruct (decide (i = S k)) as [->|].
      * by apply RANGE_rest_None.
      * apply Hno. lia.
Qed.

Lemma RANGE_backtrack_None l k :
  RANGE_backtrack l k = None → ∀ i, (i ≤ k)%nat → l !! i ≠ Some slash.
Proof.
  induction k as [|k IH]; simpl; intros H i Hi.
  - destruct (RANGE_rest l 0) eqn:Hr; [done|].
    assert (i = 0%nat) as -> by lia. by apply RANGE_rest_None.
  - destruct (RANGE_rest l (S k)) eqn:Hr; [done|].
    destruct (decide (i = S k)) as [->|].
    + by apply RANGE_rest_None.
    + apply IH; [done|lia].
Qed.

Lemma drop_run_stop l :
  drop (dot_star_run l) l = [] ∨ head (drop (dot_star_run l) l) = Some newline.
Proof.
  rewrite head_lookup, lookup_drop, Nat.add_0_r.
  destruct (dot_star_run_stop l) as [H|H]; [left|by right].
  apply drop_ge. by apply lookup_ge_None.
Qed.

Lemma RANGE_match_at_Some l g :
  RANGE_match_at l = Some g →
  ∃ a b post,
    g = (str a, str b) ∧ l = a ++ slash :: b ++ post ∧
    (slash ∉ b) ∧ (newline ∉ a) ∧ (newline ∉ b) ∧
    (post = [] ∨ head post = Some newline).
Proof.
  unfold RANGE_match_at. intros H.
  apply RANGE_backtrack_Some in H as (j & Hj & Hrest & Hno).
  apply RANGE_rest_Some in Hrest as [Hslash ->].
  assert (j < dot_star_run l)%nat as Hlt.
  { destruct (decide (j = dot_star_run l)) as [->|]; [|lia].
    destruct (dot_star_run_stop l) as [Hs|Hs]; rewrite Hs in Hslash; discriminate. }
  set (after := drop (S j) l).
  exists (take j l), (take (dot_star_run after) after), (drop (dot_star_run after) after).
  split; [done|]. split.
  { rewrite take_drop. symmetry. by apply take_drop_middle. }
  split.
  { intros (i & Hi & Hlti)%elem_of_take. unfold after in Hi, Hlti.
    rewrite dot_star_run_drop in Hlti by lia.
    rewrite lookup_drop in Hi. apply (Hno (S j + i)%nat); [lia|done]. }
  split.
  { intros (i & Hi & Hlti)%elem_of_take.
    destruct (dot_star_run_lookup l i) as (c & Hc & Hne); [lia|].
    rewrite Hi in Hc. apply Hne. symmetry. by injection Hc. }
  split; [apply dot_star_run_no_newline | apply drop_run_stop].
Qed.

Lemma RANGE_match_at_None l i :
  RANGE_match_at l = None → (i ≤ dot_star_run l)%nat → l !! i ≠ Some slash.
Proof. unfold RANGE_match_at. intros H. by apply RANGE_backtrack_None. Qed.

Lemma RANGE_search_from_None l : RANGE_search_from l = None ↔ slash ∉ l.
Proof.
  induction l as [|c l IH]; simpl.
  - split; [intros _; apply not_elem_of_nil|].
    intros _. by vm_compute.
  - destruct (RANGE_match_at (c :: l)) as [g|] eqn:Hm.
    + split; [done|]. intros Hno. exfalso. apply Hno.
      apply RANGE_match_at_Some in Hm as (a & b & post & _ & -> & _).
      set_solver.
    + rewrite IH, not_elem_of_cons. split; [|tauto].
      intros Hl. split; [|done]. intros <-.
      apply (RANGE_match_at_None _ 0%nat) in Hm; [done|lia].
Qed.

Lemma RANGE_search_from_Some l g :
  RANGE_search_from l = Some g →
  ∃ a b, g = (str a, str b) ∧ range_split l a b.
Proof.
  induction l as [|c l IH]; simpl.
  - by vm_compute.
  - destruct (RANGE_match_at (c :: l)) as [g'|] eqn:Hm.
    + intros [= ->].
      apply RANGE_match_at_Some in Hm as (a & b & post & -> & Hl & Hb & Ha & Hb' & Hpost).
      exists a, b. split; [done|]. exists [], post. simpl.
      repeat split; try done; [apply not_elem_of_nil | by left].
    + intros H. destruct (IH H) as (a & b & -> & pre & post & -> & Hpre & Hb & Ha & Hb' & Hlast & Hpost).
      exists a, b. split; [done|]. exists (c :: pre), post.
      assert (c ≠ slash) as Hc.
      { intros ->. apply (RANGE_match_at_None _ 0%nat) in Hm; [done|simpl; lia]. }
      repeat split; try done.
      { rewrite not_elem_of_cons. done. }
      right. destruct Hlast as [->|Hlast]; [|by rewrite last_cons, Hlast].
      simpl in *.
      destruct (is_newline c) eqn:Hnl; [by apply is_newline_true in Hnl as ->|].
      exfalso.
      assert (length a < dot_star_run (a ++ slash :: b ++ post))%nat as Hrun.
      { clear -Ha. induction a as [|x a IHa]; simpl.
        - lia.
        - apply not_elem_of_cons in Ha as [Hx Ha].
          destruct (is_newline x) eqn:Hxn; [by apply is_newline_true in Hxn|].
          specialize (IHa Ha). lia. }
      apply (RANGE_match_at_None _ (S (length a))) in Hm.
      * apply Hm. simpl. rewrite lookup_app_r by lia. by rewrite Nat.sub_diag.
      * simpl. rewrite Hnl. lia.
Qed.

Lemma lex_leb_total a b : lex_leb a b = true ∨ lex_leb b a = true.
Proof.
  revert b. induction a as [|x a IH]; intros [|y b]; simpl; auto.
  destruct (IH b) as [H|H]; rewrite H;
    destruct (Z.ltb_spec x y), (Z.ltb_spec y x), (Z.eqb_spec x y), (Z.eqb_spec y x);
    simpl; auto; lia.
Qed.

Lemma lex_leb_trans a b c :
  lex_leb a b = true → lex_leb b c = true → lex_leb a c = true.
Proof.
  revert b c. induction a as [|x a IH]; intros [|y b] [|z c]; simpl; try done.
  intros H1 H2.
  apply orb_true_iff in H1 as [H1|[H1 H1']%andb_true_iff];
  apply orb_true_iff in H2 as [H2|[H2 H2']%andb_true_iff];
  apply orb_true_iff.
  - left. apply Z.ltb_lt. apply Z.ltb_lt in H1, H2. lia.
  - left. apply Z.ltb_lt. apply Z.ltb_lt in H1. apply Z.eqb_eq in H2. lia.
  - left. apply Z.ltb_lt. apply Z.ltb_lt in H2. apply Z.eqb_eq in H1. lia.
  - right. apply andb_true_iff. split.
    + apply Z.eqb_eq. apply Z.eqb_eq in H1, H2. lia.
    + by apply (IH b).
Qed.

#[local] Instance datetime_le_total : Total datetime_le.
Proof. intros a b. apply lex_leb_total. Qed.

#[local] Instance datetime_le_trans : Transitive datetime_le.
Proof. intros a b c. apply lex_leb_trans. Qed.

Section date_parser_facts.
Variable parse : string → datetime → res datetime.

Lemma get_date_cases date :
  match parse date default_date with
  | Ok d => get_date parse date = Ok (Some d)
  | Raise ValueError => get_date parse date = Ok None
  | Raise e => get_date parse date = Raise e
  end.
Proof. unfold get_date. by destruct (parse date default_date) as [d|[]]. Qed.

(** What an element adds does not depend on the set built so far. *)
Lemma get_dates_step_union S d :
  get_dates_step parse S d = (c ← get_dates_step parse ∅ d; Ok (S ∪ c)).
Proof.
  destruct d as [| | |s| |]; simpl; try (f_equal; set_solver).
  destruct (RANGE_search s) as [[l r]|].
  - destruct (get_date parse l) as [[a|]|]; simpl; try done;
      destruct (get_date parse r) as [[b|]|]; simpl; try done; f_equal; set_solver.
  - destruct (get_date parse s) as [[a|]|]; simpl; try done; f_equal; set_solver.
Qed.

Lemma get_dates_loop_spec l : ∀ S,
  match get_dates_loop parse S l with
  | Ok S' =>
      (∀ d, d ∈ l → ∃ c, get_dates_step parse ∅ d = Ok c) ∧
      (∀ x, x ∈ S' ↔
            x ∈ S ∨ ∃ d c, d ∈ l ∧ get_dates_step parse ∅ d = Ok c ∧ x ∈ c)
  | Raise _ => ∃ d e, d ∈ l ∧ get_dates_step parse ∅ d = Raise e
  end.
Proof.
  induction l as [|d l IH]; intros S; simpl.
  - split; [intros d Hd; by apply elem_of_nil in Hd|].
    intros x. split; [auto|]. intros [H|(d & c & Hd & _)]; [done|].
    by apply elem_of_nil in Hd.
  - rewrite get_dates_step_union.
    destruct (get_dates_step parse ∅ d) as [c|e] eqn:Hd; simpl.
    + specialize (IH (S ∪ c)).
      destruct (get_dates_loop parse (S ∪ c) l) as [S'|e'].
      * destruct IH as [Hall Hmem]. split.
        { intros d' [->|Hd']%elem_of_cons; eauto. }
        intros x. rewrite Hmem, elem_of_union. split.
        { intros [[Hx|Hx]|(d' & c' & Hin & Hc' & Hx)]; [by left| |].
          - right. exists d, c. split; [apply elem_of_cons; by left|done].
          - right. exists d', c'. split; [apply elem_of_cons; by right|done]. }
        intros [Hx|(d' & c' & [->|Hin]%elem_of_cons & Hc' & Hx)]; [by left;left| |].
        { left. right. congruence. }
        right. eauto.
      * destruct IH as (d' & e'' & Hin & He). exists d', e''.
        split; [apply elem_of_cons; by right|done].
    + exists d, e. split; [apply elem_of_cons; by left|done].
Qed.

(** The loop sees its input only as a set of elements. *)
Lemma get_dates_loop_same_elements l l' S :
  (∀ d, d ∈ l ↔ d ∈ l') →
  agree (get_dates_loop parse S l) (get_dates_loop parse S l').
Proof.
  intros Hsame.
  pose proof (get_dates_loop_spec l S) as H1.
  pose proof (get_dates_loop_spec l' S) as H2.
  destruct (get_dates_loop parse S l) as [S1|e1],
           (get_dates_loop parse S l') as [S2|e2]; simpl; try done.
  - destruct H1 as [_ H1], H2 as [_ H2].
    apply set_eq. intros x. rewrite H1, H2.
    split; (intros [Hx|(d & c & Hd & Hc & Hx)]; [by left|right]);
      exists d, c; (split; [by apply Hsame|done]).
  - destruct H1 as [H1 _], H2 as (d & e & Hd & He).
    apply Hsame in Hd. destruct (H1 d Hd) as [c Hc]. congruence.
  - destruct H2 as [H2 _], H1 as (d & e & Hd & He).
    apply Hsame in Hd. destruct (H2 d Hd) as [c Hc]. congruence.
Qed.

Lemma get_dates_same_elements l l' :
  (∀ d, d ∈ l ↔ d ∈ l') →
  agree (get_dates parse (PyList l)) (get_dates parse (PyList l')).
Proof.
  intros Hsame. unfold get_dates. simpl.
  pose proof (get_dates_loop_same_elements l l' ∅ Hsame) as H.
  destruct (get_dates_loop parse ∅ l) as [S|], (get_dates_loop parse ∅ l') as [S'|];
    simpl in *; try done.
  subst S'. by destruct (sorted S).
Qed.

(** What [sorted] returns is the set in ascending order; it raises only
    the [TypeError] of a set with both kinds of datetime. *)
Lemma sorted_Ok S ys :
  sorted S = Ok ys →
  ys = merge_sort datetime_le (elements S) ∧ mixed (elements S) = false.
Proof. unfold sorted. destruct (mixed (elements S)); [done|]. by intros [= <-]. Qed.

Lemma mixed_true l :
  mixed l = true ↔ ∃ a b, a ∈ l ∧ b ∈ l ∧ aware a = true ∧ aware b = false.
Proof.
  unfold mixed. rewrite andb_true_iff, !existsb_exists. split.
  - intros [(a & Ha & Haw) (b & Hb & Hbw)]. exists a, b.
    rewrite !list_elem_of_In. by apply negb_true_iff in Hbw.
  - intros (a & b & Ha & Hb & Haw & Hbw). rewrite list_elem_of_In in Ha, Hb.
    split; [by exists a|]. exists b. by rewrite Hbw.
Qed.

Lemma sorted_Raise S e :
  sorted S = Raise e →
  e = TypeError ∧ ∃ a b, a ∈ S ∧ b ∈ S ∧ aware a = true ∧ aware b = false.
Proof.
  unfold sorted. destruct (mixed (elements S)) eqn:Hm; [|done].
  intros [= <-]. split; [done|].
  apply mixed_true in Hm as (a & b & Ha & Hb & H).
  exists a, b. by rewrite <-!elem_of_elements.
Qed.

(** The list returned is strictly ascending: sorted, without repetition. *)
Lemma get_dates_ascending dates ys :
  get_dates parse dates = Ok ys → StronglySorted datetime_le ys ∧ NoDup ys.
Proof.
  unfold get_dates. destruct (py_iter dates) as [elems|].
  - destruct (get_dates_loop parse ∅ elems) as [S|]; simpl; [|done].
    intros [-> _]%sorted_Ok. split.
    + apply StronglySorted_merge_sort; apply _.
    + rewrite merge_sort_Permutation. apply NoDup_elements.
  - intros [= <-]. split; constructor.
Qed.

End date_parser_facts.

(** ** Claims on date_parser.py *)

(** C1.  [get_dates] on the reference vectors, for a parser that reads the
    bare years "1923", "1925" and "1978" as dateutil does (the year from the
    text, the other fields from the default date) and rejects "not-a-date":
    the results are empty for "not-a-date" and for [None], and hold the
    datetimes of 1 January 1923, 1925 and 1978 for the others; as Python
    values they are lists of datetimes, and differ from the lists of integers
    [1923, 1925], [1923] and [1978]. *)
Theorem get_dates_reference_vectors (parse : string → datetime → res datetime) :
  parse "1923" default_date = Ok d1923 →
  parse "1925" default_date = Ok d1925 →
  parse "1978" default_date = Ok default_date →
  parse "not-a-date" default_date = Raise ValueError →
  get_dates parse (PyList [PyStr "1923/1925"]) = Ok [d1923; d1925] ∧
  get_dates parse (PyList [PyStr "1923"]) = Ok [d1923] ∧
  get_dates parse (PyList [PyStr "not-a-date"]) = Ok [] ∧
  get_dates parse PyNone = Ok [] ∧
  get_dates parse (PyList [PyStr "1978"]) = Ok [default_date] ∧
  py_of_dates [d1923; d1925] ≠ PyList [PyInt 1923; PyInt 1925] ∧
  py_of_dates [d1923] ≠ PyList [PyInt 1923] ∧
  py_of_dates [default_date] ≠ PyList [PyInt 1978].
Proof.
  intros H23 H25 H78 Hnot.
  assert (get_date parse "1923" = Ok (Some d1923)) as G23
    by (unfold get_date; by rewrite H23).
  assert (get_date parse "1925" = Ok (Some d1925)) as G25
    by (unfold get_date; by rewrite H25).
  assert (get_date parse "1978" = Ok (Some default_date)) as G78
    by (unfold get_date; by rewrite H78).
  assert (get_date parse "not-a-date" = Ok None) as Gnot
    by (unfold get_date; by rewrite Hnot).
  assert (RANGE_search "1923/1925" = Some ("1923"%string, "1925"%string)) as R1
    by (by vm_compute).
  assert (RANGE_search "1923" = None) as R2 by (by vm_compute).
  assert (RANGE_search "not-a-date" = None) as R3 by (by vm_compute).
  assert (RANGE_search "1978" = None) as R4 by (by vm_compute).
  unfold get_dates, py_iter, get_dates_loop, get_dates_step.
  rewrite R1, R2, R3, R4, G23, G25, G78, Gnot. simpl.
  repeat split; try discriminate; try done; f_equal; by vm_compute.
Qed.

Lemma get_dates_reference_vectors_witness :
  get_dates bare_year_parse (PyList [PyStr "1923"]) = Ok [d1923] ∧
  py_of_dates [d1923] ≠ PyList [PyInt 1923].
Proof.
  pose proof (get_dates_reference_vectors bare_year_parse
                eq_refl eq_refl eq_refl eq_refl) as H.
  split; [apply H|]. apply H.
Defined.



(** C4.  The list [get_dates] returns does not depend on the order of its
    input nor on repetitions in it: a permutation of the input, and the
    input with one of its elements written twice, give the same outcome
    (the same list, or an exception in both cases). *)
Theorem get_dates_order_and_duplicates (parse : string → datetime → res datetime)
    (dates : list pyval) :
  (∀ dates', dates ≡ₚ dates' →
     agree (get_dates parse (PyList dates)) (get_dates parse (PyList dates'))) ∧
  (∀ l1 x l2, dates = l1 ++ x :: l2 →
     agree (get_dates parse (PyList dates))
           (get_dates parse (PyList (l1 ++ x :: x :: l2)))).
Proof.
  split.
  - intros dates' Hperm. apply get_dates_same_elements.
    intros d. by rewrite Hperm.
  - intros l1 x l2 ->. apply get_dates_same_elements.
    intros d. rewrite !elem_of_app, !elem_of_cons. tauto.
Qed.

Lemma get_dates_order_and_duplicates_witness :
  agree (get_dates bare_year_parse (PyList [PyStr "1925"; PyStr "1923"]))
        (get_dates bare_year_parse (PyList [PyStr "1923"; PyStr "1925"])) ∧
  agree (get_dates bare_year_parse (PyList [PyStr "1925"; PyStr "1923"]))
        (get_dates bare_year_parse
           (PyList ([] ++ PyStr "1925" :: PyStr "1925" :: [PyStr "1923"]))).
Proof.
  split.
  - exact (proj1 (get_dates_order_and_duplicates bare_year_parse
                    [PyStr "1925"; PyStr "1923"])
             [PyStr "1923"; PyStr "1925"]
             (perm_swap (PyStr "1923") (PyStr "1925") [])).
  - exact (proj2 (get_dates_order_and_duplicates bare_year_parse
                    [PyStr "1925"; PyStr "1923"])
             [] (PyStr "1925") [PyStr "1923"] eq_refl).
Defined.

(** ** Claims on feed_ursus.py *)


(** ** Splitting *)

Lemma is_prefix_app p l : is_prefix p l = true → l = p ++ drop (length p) l.
Proof.
  revert l. induction p as [|a p IH]; intros [|b l]; simpl; try done.
  intros [Hab Hp]%andb_true_iff. apply Ascii.eqb_eq in Hab as ->.
  f_equal. by apply IH.
Qed.

(** Passing over [skip] characters is dropping them. *)
Lemma split_from_skip sep l skip cur :
  (skip ≤ length l)%nat →
  split_from sep l skip cur = split_from sep (drop skip l) 0 cur.
Proof.
  revert skip. induction l as [|c l IH]; intros [|skip] Hlen; simpl in *.
  - done.
  - lia.
  - done.
  - apply IH. lia.
Qed.

Lemma split_from_nonempty sep l : ∀ skip cur, split_from sep l skip cur ≠ [].
Proof.
  induction l as [|c l IH]; intros skip cur; simpl; [done|].
  destruct skip; [|apply IH].
  destruct (is_prefix sep (c :: l)); [done|apply IH].
Qed.

Lemma join_cons sep x xs :
  xs ≠ [] → join sep (x :: xs) = x ++ sep ++ join sep xs.
Proof. by destruct xs. Qed.

(** Joining the fragments with the separator gives the text back. *)
Lemma split_from_join sep n : ∀ l cur,
  sep ≠ [] → (length l ≤ n)%nat →
  join sep (chars <$> split_from sep l 0 cur) = cur ++ l.
Proof.
  induction n as [|n IH]; intros [|c l] cur Hsep Hlen; simpl in *;
    try (by rewrite chars_str, app_nil_r); [lia|].
  destruct (is_prefix sep (c :: l)) eqn:Hp.
  - pose proof (is_prefix_app _ _ Hp) as Hl.
    destruct sep as [|s sep]; [done|]. simpl in Hl. injection Hl as -> Hl.
    simpl length. replace (S (length sep) - 1)%nat with (length sep) by lia.
    rewrite split_from_skip by (rewrite Hl; rewrite length_app; lia).
    rewrite fmap_cons, join_cons.
    2:{ intros H%fmap_nil_inv. by apply split_from_nonempty in H. }
    rewrite chars_str, IH; [|done|rewrite length_drop; lia].
    simpl. by rewrite <-Hl.
  - rewrite IH; [|done|lia]. by rewrite <-app_assoc.
Qed.

Lemma split_join sep s :
  sep ≠ ""%string → str (join (chars sep) (chars <$> split sep s)) = s.
Proof.
  intros Hsep. unfold split.
  rewrite (split_from_join _ (length (chars s))); [apply str_chars| |done].
  intros H. apply Hsep. by rewrite <-(str_chars sep), H.
Qed.

(** ** The list path of map_field_value *)

Section field_mapper_facts.
Variable FIELD_MAPPING : list (string * MappingRule).

Lemma extend_columns_concat row mapping output :
  extend_columns row mapping output =
  output ++ concat (cell_fragments row <$> mapping).
Proof.
  revert output. induction mapping as [|csv_field rest IH]; intros output; simpl.
  - by rewrite app_nil_r.
  - rewrite IH. unfold cell_fragments at 2.
    destruct (row !! csv_field) as [[input_value|]|]; simpl; [|done|done].
    destruct (decide (input_value = ""%string)) as [->|Hne]; simpl; [done|].
    rewrite (proj2 (String.eqb_neq _ _) Hne). simpl. by rewrite app_assoc.
Qed.

Lemma map_columns_spec row field_name config mapping :
  map_columns row field_name config mapping =
  filter (λ value, value ≠ ""%string)
    (resolve_term (controlled_terms config field_name) <$>
       concat (cell_fragments row <$> mapping)).
Proof.
  unfold map_columns. rewrite extend_columns_concat. simpl.
  unfold resolve_term.
  destruct (controlled_terms config field_name); [done|].
  by rewrite list_fmap_id.
Qed.

(** C5.  For a rule that names one column or a list of columns,
    [map_field_value] returns the list obtained by splitting every
    non-empty cell the rule names on the delimiter "|~|", putting the
    fragments one after the other in the order of the columns and, within
    a column, in the order of the split, passing each fragment through the
    vocabulary of the field, and dropping the empty strings.  Where the
    field has no vocabulary the list is the fragments without the empty
    ones: the cell "a|~|b|~|" under a one-column rule gives ["a", "b"]
    (the witness below). *)
Theorem map_field_value_columns (row : Row) (field_name : string)
    (config : Config) (rule : MappingRule) (mapping : list string) :
  dict_get FIELD_MAPPING field_name = Some rule →
  rule_columns rule = Some mapping →
  map_field_value FIELD_MAPPING row field_name config =
    Ok (py_str_list
          (filter (λ value, value ≠ ""%string)
             (resolve_term (controlled_terms config field_name) <$>
                concat (cell_fragments row <$> mapping)))) ∧
  (controlled_terms config field_name = None →
   map_field_value FIELD_MAPPING row field_name config =
     Ok (py_str_list
           (filter (λ value, value ≠ ""%string)
              (concat (cell_fragments row <$> mapping))))).
Proof.
  intros Hrule Hcols. unfold map_field_value. rewrite Hrule.
  destruct rule; simpl in Hcols; try done; injection Hcols as <-;
    rewrite map_columns_spec; (split; [done|]); intros ->; simpl;
    by rewrite list_fmap_id.
Qed.
End field_mapper_facts.

Lemma map_field_value_columns_witness :
  dict_get [("title_tesim"%string, RuleColumn "Title")] "title_tesim" =
    Some (RuleColumn "Title") ∧
  map_field_value [("title_tesim"%string, RuleColumn "Title")]
    {[ "Title" := Some "a|~|b|~|"%string ]} "title_tesim"
    (mk_Config None None None) = Ok (py_str_list ["a"; "b"]%string).
Proof.
  split; [reflexivity|].
  pose proof (proj1 (map_field_value_columns
                  [("title_tesim"%string, RuleColumn "Title")]
                  {[ "Title" := Some "a|~|b|~|"%string ]} "title_tesim"
                  (mk_Config None None None) (RuleColumn "Title") ["Title"%string]
                  eq_refl eq_refl)) as H.
  rewrite H. vm_compute. reflexivity.
Defined.


(** ** The suffix pattern *)

Lemma word_run_all w : forallb is_word w = true → word_run w = length w.
Proof.
  induction w as [|c w IH]; simpl; [done|].
  intros [Hc Hw]%andb_true_iff. rewrite Hc. by rewrite IH.
Qed.

Lemma suffix_backtrack_Some l k n :
  suffix_backtrack l k = Some n → at_dollar (drop n l) = true.
Proof.
  induction k as [|k IH]; simpl; [done|].
  destruct (at_dollar (drop (S k) l)) eqn:Hd; [|done].
  by intros [= <-].
Qed.

(** After a match nothing is left for the pattern to match again: the
    rest is reproduced unchanged. *)
Lemma sub_suffix_after_match l n :
  suffix_match_at l = Some n → sub_suffix (drop n l) = drop n l.
Proof.
  destruct l as [|c l]; simpl; [done|].
  destruct (Ascii.eqb c underscore); [|done].
  destruct (suffix_backtrack l (word_run l)) as [k|] eqn:Hk; [|done].
  intros [= <-]. simpl. apply suffix_backtrack_Some in Hk.
  destruct (drop k l) as [|x [|y t]]; simpl in *; [done| |done].
  apply Ascii.eqb_eq in Hk as ->. by vm_compute.
Qed.

(** Everything from the first underscore on is cut, when only word
    characters follow it. *)
Lemma sub_suffix_first_underscore pre w :
  underscore ∉ pre → w ≠ [] → forallb is_word w = true →
  sub_suffix (pre ++ underscore :: w) = pre.
Proof.
  intros Hpre Hw Hword. induction pre as [|c pre IH]; simpl.
  - rewrite (word_run_all w Hword).
    destruct w as [|x w]; [done|]. simpl length. simpl suffix_backtrack.
    rewrite drop_all. simpl. by rewrite drop_all.
  - apply not_elem_of_cons in Hpre as [Hc Hpre].
    destruct (Ascii.eqb c underscore) eqn:Hcu.
    + apply Ascii.eqb_eq in Hcu. congruence.
    + by rewrite IH.
Qed.

(** C6.  The base name of "resource_type_tesim" computed by the code is
    "resource", not "resource_type": the pattern cuts at the first
    underscore that is followed by word characters only, and the underscore
    is a word character.  A vocabulary filed under "resource_type" is then
    not found, and the fragment "1" is returned as it is instead of
    "Photograph".  On a field name with a single underscore, "genre_tesim",
    the vocabulary {"1": "Photograph"} turns the fragment "1" into
    "Photograph" and leaves "2" unchanged. *)
Theorem strip_suffix_resource_type :
  strip_suffix "resource_type_tesim" = "resource"%string ∧
  map_field_value [("resource_type_tesim"%string, RuleColumn "Type")]
    {[ "Type" := Some "1"%string ]} "resource_type_tesim"
    (mk_Config None (Some {[ "resource_type"%string := {[ "1"%string := "Photograph"%string ]} ]}) None)
  = Ok (py_str_list ["1"%string]) ∧
  map_field_value [("genre_tesim"%string, RuleColumn "Genre")]
    {[ "Genre" := Some "1|~|2"%string ]} "genre_tesim"
    (mk_Config None (Some {[ "genre"%string := {[ "1"%string := "Photograph"%string ]} ]}) None)
  = Ok (py_str_list ["Photograph"; "2"]%string).
Proof. repeat split; by vm_compute. Qed.

(** C7.  [map_field_value] raises its configuration error exactly when the
    rule of the field is none of: null, a function, a string, a collection.
    A null rule and a rule naming columns return; a function rule gives
    what the function gives (a function is taken not to raise the
    configuration error of [map_field_value] itself). *)
Theorem map_field_value_config_error (FIELD_MAPPING : list (string * MappingRule))
    (row : Row) (field_name : string) (config : Config) (rule : MappingRule) :
  dict_get FIELD_MAPPING field_name = Some rule →
  (∀ f, rule = RuleCallable f → f row ≠ Raise MappingTypeError) →
  (rule = RuleOther ↔
   map_field_value FIELD_MAPPING row field_name config = Raise MappingTypeError) ∧
  (∀ f, rule = RuleCallable f →
   map_field_value FIELD_MAPPING row field_name config = f row) ∧
  (rule = RuleNone ∨ is_Some (rule_columns rule) →
   is_ok (map_field_value FIELD_MAPPING row field_name config)).
Proof.
  intros Hrule Hcall. unfold map_field_value. rewrite Hrule.
  split; [|split].
  - destruct rule as [|f| | |]; split; try done.
    intros H. by destruct (Hcall f eq_refl).
  - by intros f ->.
  - intros [->|[cols Hcols]]; [done|].
    by destruct rule.
Qed.

Lemma map_field_value_config_error_witness :
  dict_get [("id"%string, RuleOther)] "id" = Some RuleOther ∧
  map_field_value [("id"%string, RuleOther)] ∅ "id" (mk_Config None None None)
    = Raise MappingTypeError.
Proof.
  split; [reflexivity|].
  refine (proj1 (proj1 (map_field_value_config_error [("id"%string, RuleOther)] ∅ "id"
            (mk_Config None None None) RuleOther eq_refl _)) eq_refl).
  intros f H. discriminate H.
Defined.


(** ** The manifest *)

Lemma suffixed_truthy s : truthy (PyStr (s +:+ IIIF_suffix)) = true.
Proof. by destruct s. Qed.

Lemma thumbnail_of_manifest_shape manifest v :
  thumbnail_of_manifest manifest = Ok v → ∃ s, v = PyStr (s +:+ IIIF_suffix).
Proof.
  unfold thumbnail_of_manifest.
  destruct (json_getitem manifest "sequences") as [seqs|]; simpl; [|done].
  destruct (json_iter seqs) as [l|]; simpl; [|done].
  destruct (add_sequences [] l) as [canvases|]; simpl; [|done].
  match goal with |- context [mbind _ ?c] => destruct c as [chosen|] end; simpl; [|done].
  destruct chosen; simpl; try done.
  intros [= <-]. eauto.
Qed.

(** Failures of structural access: no "sequences" key, a manifest that is
    not an object, no canvas at all. *)
Lemma thumbnail_of_manifest_failures :
  (∀ items, dict_get items "sequences"%string = None →
     thumbnail_of_manifest (JObj items) = Raise (KeyError "sequences")) ∧
  (∀ l, thumbnail_of_manifest (JArr l) = Raise TypeError) ∧
  thumbnail_of_manifest (JObj [("sequences"%string, JArr [])]) = Raise IndexError ∧
  thumbnail_of_manifest
    (JObj [("sequences"%string, JArr [JObj [("canvases"%string, JArr [])]])])
  = Raise IndexError.
Proof.
  repeat split; try done.
  intros items H. unfold thumbnail_of_manifest. simpl. by rewrite H.
Qed.

Section feed_ursus_facts.
Variable FIELD_MAPPING : list (string * MappingRule).
Variable thumbnail_url : Row → res pyval.
Variable requests_get : string → res Response.
Variable series_eq : list (option string) → pyval → res (list bool).

Lemma thumbnail_from_manifest_unfold record log :
  thumbnail_from_manifest requests_get record log =
  match record_get record "iiif_manifest_url_ssi" with
  | PyStr manifest_url =>
      (Ok match requests_get manifest_url with
          | Ok response =>
              match response_json response with
              | Ok manifest =>
                  match thumbnail_of_manifest manifest with
                  | Ok v => v
                  | Raise _ => PyNone
                  end
              | Raise _ => PyNone
              end
          | Raise _ => PyNone
          end, log ++ [manifest_url])
  | _ => (Ok PyNone, log)
  end.
Proof.
  unfold thumbnail_from_manifest, try_except.
  destruct (record_get record "iiif_manifest_url_ssi") as [| | |url| |]; try done.
  unfold mbind, io_bind, http_get, lift.
  destruct (requests_get url) as [response|]; [|done].
  destruct (response_json response) as [manifest|]; [|done].
  by destruct (thumbnail_of_manifest manifest).
Qed.

Lemma thumbnail_from_manifest_ok record log :
is_ok (thumbnail_from_manifest requests_get record log).1.
Proof.
rewrite thumbnail_from_manifest_unfold.
by destruct (record_get record "iiif_manifest_url_ssi").
Qed.

(** C10.  [thumbnail_from_manifest] never raises.  When the manifest URL
    of the record is not a string it returns null at once, without any
    request.  When it is a string, one request is made, and a failure of
    the request, of the parsing of the response or of the access to the
    structure of the manifest gives null; otherwise the URL computed from
    the manifest is returned. *)
Theorem thumbnail_from_manifest_never_raises (record : UrsusRecord)
    (log : list string) :
  is_ok (thumbnail_from_manifest requests_get record log).1 ∧
  ((∀ url, record_get record "iiif_manifest_url_ssi" ≠ PyStr url) →
   thumbnail_from_manifest requests_get record log = (Ok PyNone, log)) ∧
  (∀ url, record_get record "iiif_manifest_url_ssi" = PyStr url →
     (thumbnail_from_manifest requests_get record log).2 = log ++ [url] ∧
     (∀ e, requests_get url = Raise e →
        (thumbnail_from_manifest requests_get record log).1 = Ok PyNone) ∧
     (∀ response e, requests_get url = Ok response →
        response_json response = Raise e →
        (thumbnail_from_manifest requests_get record log).1 = Ok PyNone) ∧
     (∀ response manifest e, requests_get url = Ok response →
        response_json response = Ok manifest →
        thumbnail_of_manifest manifest = Raise e →
        (thumbnail_from_manifest requests_get record log).1 = Ok PyNone) ∧
     (∀ response manifest v, requests_get url = Ok response →
        response_json response = Ok manifest →
        thumbnail_of_manifest manifest = Ok v →
        (thumbnail_from_manifest requests_get record log).1 = Ok v)).
Proof.
  rewrite thumbnail_from_manifest_unfold.
  split; [|split].
  - by destruct (record_get record "iiif_manifest_url_ssi").
  - intros Hno.
    destruct (record_get record "iiif_manifest_url_ssi") as [| | |url| |]; try done.
    by destruct (Hno url).
  - intros url ->. simpl. split; [done|].
    split; [by intros e ->|].
    split; [by intros response e -> ->|].
    split; [by intros response manifest e -> -> ->|].
    by intros response manifest v -> -> ->.
Qed.

Lemma thumbnail_from_manifest_result record log v log' :
  thumbnail_from_manifest requests_get record log = (Ok v, log') →
  truthy v = true ∨ v = PyNone.
Proof.
  rewrite thumbnail_from_manifest_unfold.
  destruct (record_get record "iiif_manifest_url_ssi") as [| | |url| |];
    try (intros [= <- <-]; by right).
  destruct (requests_get url) as [response|]; [|intros [= <- <-]; by right].
  destruct (response_json response) as [manifest|]; [|intros [= <- <-]; by right].
  destruct (thumbnail_of_manifest manifest) as [w|] eqn:Hw; [|intros [= <- <-]; by right].
  intros [= <- <-]. left.
  apply thumbnail_of_manifest_shape in Hw as [s ->]. apply suffixed_truthy.
Qed.

(** *** The base pass *)

Lemma base_pass_spec row config fields : ∀ record0 record,
  base_pass FIELD_MAPPING row config fields record0 = Ok record →
  (∀ f, f ∈ fields →
     ∃ v, map_field_value FIELD_MAPPING row f config = Ok v ∧ record !! f = Some v) ∧
  (∀ f, f ∉ fields → record !! f = record0 !! f).
Proof.
  induction fields as [|f0 rest IH]; intros record0 record; simpl.
  - intros [= <-]. split; [|done]. intros f Hf. by apply elem_of_nil in Hf.
  - destruct (map_field_value FIELD_MAPPING row f0 config) as [v0|] eqn:Hv0;
      simpl; [|done].
    intros Hrest. destruct (IH _ _ Hrest) as [Hin Hout]. split.
    + intros f [->|Hf]%elem_of_cons; [|by apply Hin].
      destruct (decide (f0 ∈ rest)) as [Hf0|Hf0]; [by apply Hin|].
      exists v0. split; [done|]. by rewrite Hout, lookup_insert_eq.
    + intros f [Hne Hf]%not_elem_of_cons.
      by rewrite Hout, lookup_insert_ne.
Qed.

Lemma base_pass_total row config fields : ∀ record0,
  (∀ f, f ∈ fields → is_ok (map_field_value FIELD_MAPPING row f config)) →
  is_ok (base_pass FIELD_MAPPING row config fields record0).
Proof.
  induction fields as [|f0 rest IH]; intros record0 Hall; simpl; [done|].
  pose proof (Hall f0 (list_elem_of_here _ _)) as H0.
  destruct (map_field_value FIELD_MAPPING row f0 config) as [v0|]; [|done].
  simpl. apply IH. intros f Hf. apply Hall. by apply list_elem_of_further.
Qed.

(** A rule that raises makes the whole base pass raise. *)
Lemma base_pass_raise row config fields : ∀ record0 f e,
  f ∈ fields → map_field_value FIELD_MAPPING row f config = Raise e →
  ¬ is_ok (base_pass FIELD_MAPPING row config fields record0).
Proof.
  induction fields as [|f0 rest IH]; intros record0 f e Hf He; simpl.
  - by apply elem_of_nil in Hf.
  - destruct (map_field_value FIELD_MAPPING row f0 config) as [v0|] eqn:Hv0;
      simpl; [|by intros []].
    apply elem_of_cons in Hf as [->|Hf]; [congruence|]. by apply (IH _ f e).
Qed.

(** *** The steps of map_record *)

Lemma map_record_unfold row config log :
  map_record FIELD_MAPPING thumbnail_url requests_get series_eq row config log =
  match base_pass FIELD_MAPPING row config (FIELD_MAPPING.*1) ∅ with
  | Raise e => (Raise e, log)
  | Ok base =>
      match resolve_thumbnail thumbnail_url requests_get series_eq base config log with
      | (Raise e, log') => (Raise e, log')
      | (Ok thumbnail, log') =>
          match collection_name row config (<["thumbnail_url_ss" := thumbnail]> base) with
          | Raise e => (Raise e, log')
          | Ok record => (Ok (facet_fields record), log')
          end
      end
  end.
Proof.
  unfold map_record, mbind, io_bind, lift, mret, io_ret.
  destruct (base_pass FIELD_MAPPING row config (FIELD_MAPPING.*1) ∅) as [base|];
    [|done].
  destruct (resolve_thumbnail thumbnail_url requests_get series_eq base config log)
    as [[thumbnail|] log']; [|done].
  by destruct (collection_name row config (<["thumbnail_url_ss" := thumbnail]> base)).
Qed.

Lemma resolve_thumbnail_unfold record config log :
  resolve_thumbnail thumbnail_url requests_get series_eq record config log =
  if truthy (record_get record "thumbnail_url_ss")
  then (Ok (record_get record "thumbnail_url_ss"), log)
  else match thumbnail_from_child thumbnail_url series_eq record config with
       | Raise e => (Raise e, log)
       | Ok from_child =>
           if truthy from_child then (Ok from_child, log)
           else thumbnail_from_manifest requests_get record log
       end.
Proof.
  unfold resolve_thumbnail, mbind, io_bind, lift, mret, io_ret.
  destruct (truthy (record_get record "thumbnail_url_ss")); [done|].
  destruct (thumbnail_from_child thumbnail_url series_eq record config) as [b|];
    [|done].
  by destruct (truthy b).
Qed.

Lemma collection_name_other row config record record' key :
  collection_name row config record = Ok record' →
  key ≠ "dlcs_collection_name_tesim"%string →
  record' !! key = record !! key.
Proof.
  unfold collection_name. intros H Hne.
  destruct (row !! "Parent ARK"%string) as [parent|]; [|by injection H as <-].
  destruct (collection_names config) as [names|]; [|done].
  destruct (names !! parent); injection H as <-; [|done].
  by rewrite lookup_insert_ne.
Qed.

Lemma collection_name_keeps row config record record' key :
  collection_name row config record = Ok record' →
  is_Some (record !! key) → is_Some (record' !! key).
Proof.
  unfold collection_name. intros H Hkey.
  destruct (row !! "Parent ARK"%string) as [parent|]; [|by injection H as <-].
  destruct (collection_names config) as [names|]; [|done].
  destruct (names !! parent); injection H as <-; [|done].
  destruct (decide ("dlcs_collection_name_tesim"%string = key)) as [<-|Hne].
  - rewrite lookup_insert_eq. eauto.
  - by rewrite lookup_insert_ne.
Qed.

Lemma mirror_keeps facet display record key :
  is_Some (record !! key) → is_Some (mirror facet display record !! key).
Proof.
  intros H. unfold mirror.
  destruct (decide (facet = key)) as [<-|Hne].
  - rewrite lookup_insert_eq. eauto.
  - by rewrite lookup_insert_ne.
Qed.

Lemma facet_fields_keeps record key :
  is_Some (record !! key) → is_Some (facet_fields record !! key).
Proof. intros H. unfold facet_fields. by do 8 apply mirror_keeps. Qed.

Lemma facet_fields_thumbnail record :
  facet_fields record !! "thumbnail_url_ss"%string = record !! "thumbnail_url_ss"%string.
Proof. unfold facet_fields, mirror. by rewrite !lookup_insert_ne. Qed.

Lemma facet_fields_year_tesim record :
  facet_fields record !! "year_tesim"%string = record !! "year_tesim"%string.
Proof. unfold facet_fields, mirror. by rewrite !lookup_insert_ne. Qed.

Lemma facet_fields_year_isim record :
  facet_fields record !! "year_isim"%string = Some (record_get record "year_tesim").
Proof.
  unfold facet_fields. unfold mirror at 1. rewrite lookup_insert_eq.
  f_equal. unfold record_get, mirror. by rewrite !lookup_insert_ne.
Qed.

Lemma map_record_inv row config record log :
  run (map_record FIELD_MAPPING thumbnail_url requests_get series_eq row config)
    = (Ok record, log) →
  ∃ base thumbnail record',
    base_pass FIELD_MAPPING row config (FIELD_MAPPING.*1) ∅ = Ok base ∧
    resolve_thumbnail thumbnail_url requests_get series_eq base config []
      = (Ok thumbnail, log) ∧
    collection_name row config (<["thumbnail_url_ss" := thumbnail]> base) = Ok record' ∧
    record = facet_fields record'.
Proof.
  unfold run. rewrite map_record_unfold.
  destruct (base_pass FIELD_MAPPING row config (FIELD_MAPPING.*1) ∅) as [base|]
    eqn:Hb; [|done].
  destruct (resolve_thumbnail thumbnail_url requests_get series_eq base config [])
    as [[thumbnail|] log'] eqn:Ht; [|done].
  destruct (collection_name row config (<["thumbnail_url_ss" := thumbnail]> base))
    as [record'|] eqn:Hc; [|done].
  intros [= <- <-]. by exists base, thumbnail, record'.
Qed.

(** C2, amended.  In a record returned by [map_record], the field
    "year_isim" holds what [record.get("year_tesim")] gives: the value the
    base pass computed for "year_tesim", unchanged, or null when the
    schema has no such field.  [get_dates] is not applied. *)
Theorem year_isim_is_copy (row : Row) (config : Config) (record : UrsusRecord)
    (log : list string) :
  run (map_record FIELD_MAPPING thumbnail_url requests_get series_eq row config)
    = (Ok record, log) →
  record !! "year_isim"%string = Some (record_get record "year_tesim") ∧
  ∃ base,
    base_pass FIELD_MAPPING row config (FIELD_MAPPING.*1) ∅ = Ok base ∧
    record_get record "year_tesim" = record_get base "year_tesim".
Proof.
  intros (base & thumbnail & record' & Hbase & _ & Hcoll & ->)%map_record_inv.
  split.
  - rewrite facet_fields_year_isim. unfold record_get.
    by rewrite facet_fields_year_tesim.
  - exists base. split; [done|]. unfold record_get.
    rewrite facet_fields_year_tesim.
    rewrite (collection_name_other _ _ _ _ _ Hcoll) by done.
    by rewrite lookup_insert_ne.
Qed.

(** A true thumbnail of the base pass is kept, whatever the child rows and
    the manifest are, and no request is made. *)
Lemma resolve_thumbnail_explicit record config log :
  truthy (record_get record "thumbnail_url_ss") = true →
  resolve_thumbnail thumbnail_url requests_get series_eq record config log
    = (Ok (record_get record "thumbnail_url_ss"), log).
Proof. intros H. by rewrite resolve_thumbnail_unfold, H. Qed.

Lemma collection_name_ok row config record :
  (is_Some (row !! "Parent ARK"%string) → is_Some (collection_names config)) →
  is_ok (collection_name row config record).
Proof.
  intros Hcoll. unfold collection_name.
  destruct (row !! "Parent ARK"%string) as [parent|] eqn:Hp; [|done].
  destruct Hcoll as [names Hnames]; [eauto|]. rewrite Hnames.
  by destruct (names !! parent).
Qed.

(** Once the thumbnail is chosen, [map_record] returns a record that
    holds it, with the requests made for the choice. *)
Lemma map_record_resolved row config base thumbnail log :
  base_pass FIELD_MAPPING row config (FIELD_MAPPING.*1) ∅ = Ok base →
  (is_Some (row !! "Parent ARK"%string) → is_Some (collection_names config)) →
  resolve_thumbnail thumbnail_url requests_get series_eq base config []
    = (Ok thumbnail, log) →
  ∃ record,
    run (map_record FIELD_MAPPING thumbnail_url requests_get series_eq row config)
      = (Ok record, log) ∧
    record !! "thumbnail_url_ss"%string = Some thumbnail.
Proof.
  intros Hbase Hcoll Hthumb. unfold run. rewrite map_record_unfold, Hbase, Hthumb.
  pose proof (collection_name_ok row config
                (<["thumbnail_url_ss" := thumbnail]> base) Hcoll) as Hok.
  destruct (collection_name row config (<["thumbnail_url_ss" := thumbnail]> base))
    as [record|] eqn:Hrecord; [|done].
  exists (facet_fields record). split; [done|].
  rewrite facet_fields_thumbnail.
  rewrite (collection_name_other _ _ _ _ _ Hrecord) by done.
  by rewrite lookup_insert_eq.
Qed.

(** C9, amended.  After the base pass, and with the collection names at
    hand when the row has a parent, the thumbnail field is the first true
    value, in this order, of: the thumbnail of the base pass, the result of
    [thumbnail_from_child], the result of [thumbnail_from_manifest]; a
    value that is false (null, an empty list, an empty string) is passed
    over.  When the base pass gave a true value, [map_record] returns a
    record with that value and has made no request: neither lookup is run,
    so that it returns even where [thumbnail_from_child] would raise.
    When it gave a false value, [thumbnail_from_child] is run: if it
    raises so does [map_record], without any request; if it gives a true
    value [map_record] returns a record with it, without any request; if it
    gives a false value, [map_record] returns a record with what
    [thumbnail_from_manifest] returns, a true value or null, and has made
    the requests of that call. *)
Theorem thumbnail_resolution (row : Row) (config : Config) (base : UrsusRecord) :
  base_pass FIELD_MAPPING row config (FIELD_MAPPING.*1) ∅ = Ok base →
  (is_Some (row !! "Parent ARK"%string) → is_Some (collection_names config)) →
  (truthy (record_get base "thumbnail_url_ss") = true →
     ∃ record,
       run (map_record FIELD_MAPPING thumbnail_url requests_get series_eq row config)
         = (Ok record, []) ∧
       record !! "thumbnail_url_ss"%string
         = Some (record_get base "thumbnail_url_ss")) ∧
  (truthy (record_get base "thumbnail_url_ss") = false →
     match thumbnail_from_child thumbnail_url series_eq base config with
     | Raise e =>
         run (map_record FIELD_MAPPING thumbnail_url requests_get series_eq row config)
           = (Raise e, [])
     | Ok from_child =>
         (truthy from_child = true →
            ∃ record,
              run (map_record FIELD_MAPPING thumbnail_url requests_get series_eq
                     row config) = (Ok record, []) ∧
              record !! "thumbnail_url_ss"%string = Some from_child) ∧
         (truthy from_child = false →
            ∃ thumbnail log record,
              thumbnail_from_manifest requests_get base [] = (Ok thumbnail, log) ∧
              run (map_record FIELD_MAPPING thumbnail_url requests_get series_eq
                     row config) = (Ok record, log) ∧
              record !! "thumbnail_url_ss"%string = Some thumbnail ∧
              (truthy thumbnail = true ∨ thumbnail = PyNone))
     end).
Proof.
  intros Hbase Hcoll. split.
  - intros Hexplicit. apply (map_record_resolved _ _ base); [done|done|].
    by apply resolve_thumbnail_explicit.
  - intros Hexplicit.
    destruct (thumbnail_from_child thumbnail_url series_eq base config)
      as [from_child|e] eqn:Hchild.
    + split; intros Hfrom.
      * apply (map_record_resolved _ _ base); [done|done|].
        by rewrite resolve_thumbnail_unfold, Hexplicit, Hchild, Hfrom.
      * pose proof (thumbnail_from_manifest_ok base []) as Hok.
        destruct (thumbnail_from_manifest requests_get base [])
          as [[thumbnail|] log] eqn:Hmanifest; [|done].
        destruct (map_record_resolved row config base thumbnail log Hbase Hcoll)
          as (record & Hrecord & Hthumb).
        { by rewrite resolve_thumbnail_unfold, Hexplicit, Hchild, Hfrom. }
        exists thumbnail, log, record. split; [done|]. split; [done|].
        split; [done|]. by apply thumbnail_from_manifest_result in Hmanifest.
    + unfold run.
      by rewrite map_record_unfold, Hbase, resolve_thumbnail_unfold, Hexplicit, Hchild.
Qed.

(** *** map_record returns on valid inputs *)

Lemma dict_get_elem {V} (d : list (string * V)) key :
  key ∈ d.*1 → is_Some (dict_get d key).
Proof.
  induction d as [|[k v] d IH]; simpl.
  - intros H. by apply elem_of_nil in H.
  - intros [->|H]%elem_of_cons.
    + rewrite decide_True by done. eauto.
    + destruct (decide (k = key)); eauto.
Qed.

Lemma first_thumbnail_total rows :
  (∀ r, is_ok (thumbnail_url r)) → is_ok (first_thumbnail thumbnail_url rows).
Proof.
  intros Hok. induction rows as [|row rest IH]; simpl; [done|].
  specialize (Hok row). destruct (thumbnail_url row) as [thumb|]; [|done].
  simpl. by destruct (truthy thumb).
Qed.

Lemma df_mask_total data column value :
  column ∈ df_columns data →
  (∀ cells v, is_ok (series_eq cells v)) →
  is_ok (df_mask series_eq data column value).
Proof.
  intros Hcol Hok. unfold df_mask, df_column.
  rewrite decide_True by done. simpl.
  destruct value; try apply Hok. done.
Qed.

Lemma thumbnail_from_child_total record config :
  (∀ data, data_frame config = Some data →
     is_Some (record !! "ark_ssi"%string) ∧
     "Parent ARK"%string ∈ df_columns data ∧ "Title"%string ∈ df_columns data ∧
     (∀ r, is_ok (thumbnail_url r)) ∧
     (∀ cells value, is_ok (series_eq cells value))) →
  is_ok (thumbnail_from_child thumbnail_url series_eq record config).
Proof.
  intros Hframe. unfold thumbnail_from_child.
  destruct (data_frame config) as [data|]; [|done].
  destruct (Hframe data eq_refl) as ([ark Hark] & Hparent & Htitle & Hurl & Heq).
  rewrite Hark. simpl.
  pose proof (df_mask_total data "Parent ARK" ark Hparent Heq) as Hm.
  destruct (df_mask series_eq data "Parent ARK" ark) as [mask|]; [|done].
  simpl.
  pose proof (df_mask_total (df_select data mask) "Title" (PyStr "f. 001r")
                Htitle Heq) as Hm'.
  destruct (df_mask series_eq (df_select data mask) "Title" (PyStr "f. 001r"))
    as [mask'|]; [|done].
  simpl. by apply first_thumbnail_total.
Qed.

Lemma map_field_value_total row config field_name :
  field_name ∈ FIELD_MAPPING.*1 →
  (∀ field_name rule, dict_get FIELD_MAPPING field_name = Some rule →
     rule ≠ RuleOther ∧ ∀ f, rule = RuleCallable f → is_ok (f row)) →
  is_ok (map_field_value FIELD_MAPPING row field_name config).
Proof.
  intros [rule Hrule]%dict_get_elem Hvalid.
  destruct (Hvalid _ _ Hrule) as [Hother Hcall].
  unfold map_field_value. rewrite Hrule.
  destruct rule as [|f| | |]; try done. by apply Hcall.
Qed.

Lemma map_record_total row config :
  valid_inputs FIELD_MAPPING thumbnail_url series_eq row config →
  is_ok (run (map_record FIELD_MAPPING thumbnail_url requests_get series_eq
                row config)).1.
Proof.
  intros (Hrules & Hcoll & Hframe). unfold run. rewrite map_record_unfold.
  pose proof (base_pass_total row config (FIELD_MAPPING.*1) ∅
                (λ f Hf, map_field_value_total row config f Hf Hrules)) as Hb.
  destruct (base_pass FIELD_MAPPING row config (FIELD_MAPPING.*1) ∅) as [base|]
    eqn:Hbase; [|done].
  assert (is_ok (resolve_thumbnail thumbnail_url requests_get series_eq
                   base config []).1) as Ht.
  { rewrite resolve_thumbnail_unfold.
    destruct (truthy (record_get base "thumbnail_url_ss")); [done|].
    assert (is_ok (thumbnail_from_child thumbnail_url series_eq base config)) as Hc.
    { apply thumbnail_from_child_total. intros data Hdata.
      destruct (Hframe data Hdata) as (Hark & Hrest). split; [|done].
      destruct (proj1 (base_pass_spec _ _ _ _ _ Hbase) _ Hark) as (v & _ & ->).
      eauto. }
    destruct (thumbnail_from_child thumbnail_url series_eq base config)
      as [from_child|]; [|done].
    destruct (truthy from_child); [done|].
    apply thumbnail_from_manifest_ok. }
  destruct (resolve_thumbnail thumbnail_url requests_get series_eq base config [])
    as [[thumbnail|] log']; [|done].
  assert (is_ok (collection_name row config (<["thumbnail_url_ss" := thumbnail]> base)))
    as Hc.
  { unfold collection_name.
    destruct (row !! "Parent ARK"%string) as [parent|] eqn:Hp; [|done].
    destruct Hcoll as [names Hnames]; [eauto|]. rewrite Hnames.
    by destruct (names !! parent). }
  by destruct (collection_name row config (<["thumbnail_url_ss" := thumbnail]> base)).
Qed.

(** C8.  A record returned by [map_record] has every field name of the
    schema among its keys, whatever value was mapped to it; and
    [map_record] does return a record on valid inputs. *)
Theorem map_record_has_schema_fields (row : Row) (config : Config) :
  (∀ record log,
     run (map_record FIELD_MAPPING thumbnail_url requests_get series_eq row config)
       = (Ok record, log) →
     ∀ field_name, field_name ∈ FIELD_MAPPING.*1 → is_Some (record !! field_name)) ∧
  (valid_inputs FIELD_MAPPING thumbnail_url series_eq row config →
   is_ok (run (map_record FIELD_MAPPING thumbnail_url requests_get series_eq
                 row config)).1).
Proof.
  split; [|apply map_record_total].
  intros record log (base & thumbnail & record' & Hbase & _ & Hcoll & ->)%map_record_inv
    field_name Hfield.
  apply facet_fields_keeps. apply (collection_name_keeps _ _ _ _ _ Hcoll).
  destruct (proj1 (base_pass_spec _ _ _ _ _ Hbase) _ Hfield) as (v & _ & Hv).
  destruct (decide ("thumbnail_url_ss"%string = field_name)) as [<-|Hne].
  - rewrite lookup_insert_eq. eauto.
  - rewrite lookup_insert_ne by done. eauto.
Qed.

End feed_ursus_facts.

Lemma thumbnail_from_manifest_never_raises_witness :
  record_get {[ "iiif_manifest_url_ssi"%string := PyStr "https://iiif.example/manifest" ]}
    "iiif_manifest_url_ssi" = PyStr "https://iiif.example/manifest" ∧
  offline "https://iiif.example/manifest" = Raise ConnectionError ∧
  (thumbnail_from_manifest offline
     {[ "iiif_manifest_url_ssi"%string := PyStr "https://iiif.example/manifest" ]} []).1
  = Ok PyNone.
Proof.
  split; [reflexivity|]. split; [reflexivity|].
  exact (proj1 (proj2 (proj2 (proj2 (thumbnail_from_manifest_never_raises offline
           {[ "iiif_manifest_url_ssi"%string := PyStr "https://iiif.example/manifest" ]} []))
         "https://iiif.example/manifest" eq_refl)) ConnectionError eq_refl).
Defined.

Lemma sample_inputs_valid :
  valid_inputs sample_mapping no_thumbnail_url no_series_eq sample_row sample_config.
Proof.
  split; [|split].
  - intros field_name rule. unfold sample_mapping. simpl.
    repeat case_decide; intros [= <-]; (split; [done|]); by intros f [= <-].
  - intros _. simpl. eauto.
  - intros data [=].
Qed.

Lemma map_record_has_schema_fields_witness :
  valid_inputs sample_mapping no_thumbnail_url no_series_eq sample_row sample_config ∧
  is_ok sample_out.1 ∧
  ∀ record log, sample_out = (Ok record, log) →
    ∀ field_name, field_name ∈ sample_mapping.*1 → is_Some (record !! field_name).
Proof.
  split; [exact sample_inputs_valid|]. split.
  - exact (proj2 (map_record_has_schema_fields sample_mapping no_thumbnail_url
                    sample_web no_series_eq sample_row sample_config)
             sample_inputs_valid).
  - exact (proj1 (map_record_has_schema_fields sample_mapping no_thumbnail_url
                    sample_web no_series_eq sample_row sample_config)).
Defined.

(** C2, as the specification states it, fails on the sample row: the date
    column holds "1923/1925", and "year_isim" is the list with that one
    string, as "year_tesim" is; it is neither what [get_dates] returns on it
    nor the list of integers [1923, 1925]. *)
Lemma year_isim_not_years :
  (λ r : UrsusRecord, r !! "year_isim"%string) <$> sample_out.1
    = Ok (Some (PyList [PyStr "1923/1925"])) ∧
  py_of_dates <$> get_dates bare_year_parse (PyList [PyStr "1923/1925"])
    = Ok (PyList [PyDatetime d1923; PyDatetime d1925]) ∧
  PyList [PyStr "1923/1925"] ≠ PyList [PyInt 1923; PyInt 1925].
Proof. split; [by vm_compute|]. split; [by vm_compute|done]. Qed.

Lemma year_isim_is_copy_witness :
  ∃ record log, sample_out = (Ok record, log) ∧
    record !! "year_isim"%string = Some (record_get record "year_tesim").
Proof.
  destruct sample_out as [[record|e] log] eqn:Hout.
  - exists record, log. split; [reflexivity|].
    exact (proj1 (year_isim_is_copy sample_mapping no_thumbnail_url sample_web
                    no_series_eq sample_row sample_config record log Hout)).
  - exfalso. vm_compute in Hout. discriminate Hout.
Defined.

(** C9, as the specification states it, fails on the sample row: the base
    pass maps the thumbnail field to the empty list, which is not null, and
    yet the manifest is requested and the field ends up with the URL taken
    from it. *)
Lemma empty_thumbnail_falls_through :
  (λ r : UrsusRecord, r !! "thumbnail_url_ss"%string) <$>
    base_pass sample_mapping sample_row sample_config (sample_mapping.*1) ∅
    = Ok (Some (PyList [])) ∧
  PyList [] ≠ PyNone ∧
  (λ r : UrsusRecord, r !! "thumbnail_url_ss"%string) <$> sample_out.1
    = Ok (Some (PyStr "https://iiif.example/img1/full/!200,200/0/default.jpg")) ∧
  sample_out.2 = ["https://iiif.example/manifest"%string].
Proof. repeat split; try done; by vm_compute. Qed.

Lemma thumb_base_returns :
  is_ok (base_pass sample_mapping thumb_row thumb_config (sample_mapping.*1) ∅).
Proof. vm_compute. exact I. Qed.

Lemma thumb_base_thumbnail base :
  base_pass sample_mapping thumb_row thumb_config (sample_mapping.*1) ∅ = Ok base →
  record_get base "thumbnail_url_ss" = PyList [PyStr "https://iiif.example/thumb.jpg"].
Proof.
  intros Hbase.
  destruct (proj1 (base_pass_spec _ _ _ _ _ _ Hbase) "thumbnail_url_ss"%string)
    as (v & Hv & Hlook).
  { apply list_elem_of_further, list_elem_of_here. }
  vm_compute in Hv. injection Hv as <-. unfold record_get. by rewrite Hlook.
Qed.

Lemma thumb_base_child base :
  base_pass sample_mapping thumb_row thumb_config (sample_mapping.*1) ∅ = Ok base →
  thumbnail_from_child no_thumbnail_url no_series_eq base thumb_config
    = Raise (KeyError "ark_ssi").
Proof.
  intros Hbase. unfold thumbnail_from_child. simpl.
  rewrite (proj2 (base_pass_spec _ _ _ _ _ _ Hbase) "ark_ssi"%string); [done|].
  apply (bool_decide_unpack _). vm_compute. exact I.
Qed.

Lemma thumbnail_resolution_witness :
  ∃ base,
    base_pass sample_mapping thumb_row thumb_config (sample_mapping.*1) ∅ = Ok base ∧
    truthy (record_get base "thumbnail_url_ss") = true ∧
    thumbnail_from_child no_thumbnail_url no_series_eq base thumb_config
      = Raise (KeyError "ark_ssi") ∧
    ∃ record,
      run (map_record sample_mapping no_thumbnail_url offline no_series_eq
             thumb_row thumb_config) = (Ok record, []) ∧
      record !! "thumbnail_url_ss"%string = Some (record_get base "thumbnail_url_ss").
Proof.
  pose proof thumb_base_returns as Hok.
  destruct (base_pass sample_mapping thumb_row thumb_config (sample_mapping.*1) ∅)
    as [base|e] eqn:Hbase; [|destruct Hok].
  assert (truthy (record_get base "thumbnail_url_ss") = true) as Htrue
    by (rewrite (thumb_base_thumbnail base Hbase); reflexivity).
  exists base. split; [reflexivity|]. split; [exact Htrue|].
  split; [exact (thumb_base_child base Hbase)|].
  refine (proj1 (thumbnail_resolution sample_mapping no_thumbnail_url offline
                   no_series_eq thumb_row thumb_config base Hbase _) Htrue).
  intros [parent Hparent]. discriminate Hparent.
Defined.

(** * Further facts *)

(** ** More on date_parser.py *)

Lemma elem_of_sorted (S : gset datetime) ys x :
  sorted S = Ok ys → (x ∈ ys ↔ x ∈ S).
Proof.
  intros [-> _]%sorted_Ok. by rewrite merge_sort_Permutation, elem_of_elements.
Qed.

Lemma StronglySorted_lookup_lt {A} (R : relation A) (l : list A) :
  StronglySorted R l →
  ∀ i j a b, (i < j)%nat → l !! i = Some a → l !! j = Some b → R a b.
Proof.
  induction 1 as [|x l Hl IH Hx]; intros i j a b Hij Ha Hb.
  - by rewrite lookup_nil in Ha.
  - destruct j as [|j]; [lia|]. destruct i as [|i]; simpl in *.
    + injection Ha as <-. rewrite Forall_forall in Hx. apply Hx.
      by apply list_elem_of_lookup_2 in Hb.
    + apply (IH i j); [lia|done|done].
Qed.

Section date_parser_more.
Variable parse : string → datetime → res datetime.

Lemma get_date_Some date d :
  get_date parse date = Ok (Some d) ↔ parse date default_date = Ok d.
Proof.
  unfold get_date. destruct (parse date default_date) as [d'|[]]; split;
    intros H; try done; congruence.
Qed.


Lemma get_dates_step_reads date c x :
  get_dates_step parse ∅ date = Ok c → (x ∈ c ↔ reads parse date x).
Proof.
  unfold reads. destruct date as [| | |s| |]; simpl;
    try (intros [= <-]; split; [set_solver|by intros (s & [=] & _)]).
  destruct (RANGE_search s) as [[a b]|] eqn:Hr.
  - destruct (get_date parse a) as [[da|]|] eqn:Ha; simpl; [| |done].
    + destruct (get_date parse b) as [[db|]|] eqn:Hb; simpl; [| |done].
      * apply get_date_Some in Ha, Hb. intros [= <-]. split.
        { intros Hx. exists s. split; [done|]. rewrite Hr.
          exists da, db. set_solver. }
        intros (s' & [= <-] & Hx). rewrite Hr in Hx.
        destruct Hx as (da' & db' & Ha' & Hb' & Hx).
        rewrite Ha in Ha'. rewrite Hb in Hb'. set_solver.
      * intros [= <-]. split; [set_solver|].
        intros (s' & [= <-] & Hx). rewrite Hr in Hx.
        destruct Hx as (da' & db' & _ & Hb' & _).
        apply get_date_Some in Hb'. congruence.
    + destruct (get_date parse b) as [[db|]|] eqn:Hb; simpl; [| |done];
        intros [= <-]; (split; [set_solver|]);
        intros (s' & [= <-] & Hx); rewrite Hr in Hx;
        destruct Hx as (da' & db' & Ha' & _ & _);
        apply get_date_Some in Ha'; congruence.
  - destruct (get_date parse s) as [[d|]|] eqn:Hs; simpl; [| |done].
    + apply get_date_Some in Hs. intros [= <-]. split.
      { intros Hx. exists s. split; [done|]. rewrite Hr. set_solver. }
      intros (s' & [= <-] & Hx). rewrite Hr, Hs in Hx. set_solver.
    + intros [= <-]. split; [set_solver|].
      intros (s' & [= <-] & Hx). rewrite Hr in Hx.
      apply get_date_Some in Hx. congruence.
Qed.

(** X1.  The list [get_dates] returns is strictly ascending: of two of
    its entries, the earlier one is before the later one in the order of
    datetimes and differs from it. *)
Theorem get_dates_strictly_ascending (dates : pyval) (ys : list datetime) :
  get_dates parse dates = Ok ys →
  ∀ i j a b, (i < j)%nat → ys !! i = Some a → ys !! j = Some b →
    datetime_le a b ∧ a ≠ b.
Proof.
  intros [Hsorted Hnodup]%get_dates_ascending i j a b Hij Ha Hb. split.
  - by apply (StronglySorted_lookup_lt _ _ Hsorted i j).
  - intros ->. apply (NoDup_lookup _ _ _ _ Hnodup Ha) in Hb. lia.
Qed.

Lemma get_dates_contributions dates ys :
  get_dates parse (PyList dates) = Ok ys →
  (∀ d, d ∈ dates → ∃ c, get_dates_step parse ∅ d = Ok c) ∧
  (∀ x, x ∈ ys ↔
        ∃ d c, d ∈ dates ∧ get_dates_step parse ∅ d = Ok c ∧ x ∈ c).
Proof.
  unfold get_dates. simpl.
  pose proof (get_dates_loop_spec parse dates ∅) as Hspec.
  destruct (get_dates_loop parse ∅ dates) as [S|]; simpl; [|done].
  destruct Hspec as [Hall Hmem]. intros Hsorted. split; [done|].
  intros x. rewrite (elem_of_sorted _ _ _ Hsorted), Hmem. set_solver.
Qed.

(** X2.  A datetime is in the list [get_dates] returns exactly when some
    element of the input reads as it: a string without a slash that the
    parser reads as that datetime, or a string with a slash both sides of
    which the parser reads, one of them as that datetime.  Nothing else
    gets in and nothing that is read is lost. *)
Theorem get_dates_members (dates : list pyval) (ys : list datetime) :
  get_dates parse (PyList dates) = Ok ys →
  ∀ x, x ∈ ys ↔ ∃ date, date ∈ dates ∧ reads parse date x.
Proof.
  intros [Hall Hmem]%get_dates_contributions x. rewrite Hmem. split.
  - intros (d & c & Hd & Hc & Hx).
    exists d. split; [done|]. by apply (get_dates_step_reads d c).
  - intros (d & Hd & Hx). destruct (Hall d Hd) as [c Hc].
    exists d, c. split; [done|]. split; [done|].
    by apply (get_dates_step_reads d c).
Qed.

Lemma get_dates_loop_cons S date dates :
  get_dates_loop parse S (date :: dates) =
  get_dates_step parse S date ≫= λ S', get_dates_loop parse S' dates.
Proof. done. Qed.

Lemma get_dates_loop_strings dates : ∀ S,
  get_dates_loop parse S dates = get_dates_loop parse S (filter is_str dates).
Proof.
  induction dates as [|d dates IH]; intros S; [done|].
  destruct d; try apply IH.
  rewrite filter_cons_True by done. rewrite !get_dates_loop_cons.
  destruct (get_dates_step parse S (PyStr s)); simpl; [apply IH|done].
Qed.

(** X3.  Elements that are not strings are skipped: taking them out of
    the input changes nothing in the outcome of [get_dates]. *)
Theorem get_dates_ignores_non_strings (dates : list pyval) :
  get_dates parse (PyList dates) = get_dates parse (PyList (filter is_str dates)).
Proof. unfold get_dates. simpl. by rewrite get_dates_loop_strings. Qed.









(** X5.  When [get_dates] returns on two lists, then on the two put end
    to end it returns exactly when the two results hold no aware datetime
    beside a naive one; a datetime is then in the result exactly when it is
    in one of the two.  Otherwise it raises the [TypeError] of the sort. *)
Theorem get_dates_app (l1 l2 : list pyval) (y1 y2 : list datetime) :
  get_dates parse (PyList l1) = Ok y1 →
  get_dates parse (PyList l2) = Ok y2 →
  match get_dates parse (PyList (l1 ++ l2)) with
  | Ok y =>
      (∀ x, x ∈ y ↔ x ∈ y1 ∨ x ∈ y2) ∧
      (∀ a b, a ∈ y1 ++ y2 → b ∈ y1 ++ y2 → aware a = aware b)
  | Raise e =>
      e = TypeError ∧
      ∃ a b, a ∈ y1 ++ y2 ∧ b ∈ y1 ++ y2 ∧ aware a = true ∧ aware b = false
  end.
Proof.
  intros H1 H2.
  destruct (get_dates_contributions l1 y1 H1) as [A1 M1].
  destruct (get_dates_contributions l2 y2 H2) as [A2 M2].
  assert (∃ S, get_dates_loop parse ∅ (l1 ++ l2) = Ok S ∧
               ∀ x, x ∈ S ↔ x ∈ y1 ++ y2) as (S & HS & Hmem).
  { pose proof (get_dates_loop_spec parse (l1 ++ l2) ∅) as Hspec.
    destruct (get_dates_loop parse ∅ (l1 ++ l2)) as [S|].
    - exists S. split; [done|]. intros x. destruct Hspec as [_ Hspec].
      rewrite Hspec, elem_of_app, M1, M2. setoid_rewrite elem_of_app.
      split; [|naive_solver]. intros [?|?]; [set_solver|naive_solver].
    - exfalso. destruct Hspec as (d & e' & [Hd|Hd]%elem_of_app & He).
      + destruct (A1 d Hd) as [c Hc]. congruence.
      + destruct (A2 d Hd) as [c Hc]. congruence. }
  unfold get_dates. simpl. rewrite HS. simpl.
  destruct (sorted S) as [y|e] eqn:Hy.
  - split.
    + intros x. by rewrite (elem_of_sorted _ _ _ Hy), Hmem, elem_of_app.
    + intros a b Ha%Hmem Hb%Hmem.
      apply sorted_Ok in Hy as [_ Hy].
      destruct (aware a) eqn:Haw, (aware b) eqn:Hbw; try done; exfalso.
      * assert (mixed (elements S) = true) as Hm; [|congruence].
        apply mixed_true. exists a, b. by rewrite !elem_of_elements.
      * assert (mixed (elements S) = true) as Hm; [|congruence].
        apply mixed_true. exists b, a. by rewrite !elem_of_elements.
  - apply sorted_Raise in Hy as [-> (a & b & Ha & Hb & H)]. split; [done|].
    exists a, b. by rewrite <-!Hmem.
Qed.

End date_parser_more.


Lemma get_dates_strictly_ascending_witness :
  get_dates bare_year_parse (PyList [PyStr "1925"; PyStr "1923"]) = Ok [d1923; d1925] ∧
  datetime_le d1923 d1925 ∧ d1923 ≠ d1925.
Proof.
  assert (get_dates bare_year_parse (PyList [PyStr "1925"; PyStr "1923"])
          = Ok [d1923; d1925]) as H by (vm_compute; reflexivity).
  split; [exact H|].
  exact (get_dates_strictly_ascending bare_year_parse _ _ H 0%nat 1%nat d1923 d1925
           (le_n 1) eq_refl eq_refl).
Defined.

Lemma get_dates_members_witness :
  get_dates bare_year_parse (PyList [PyStr "1923/1925"]) = Ok [d1923; d1925] ∧
  (d1925 ∈ [d1923; d1925] ↔
   ∃ date, date ∈ [PyStr "1923/1925"] ∧ reads bare_year_parse date d1925).
Proof.
  assert (get_dates bare_year_parse (PyList [PyStr "1923/1925"])
          = Ok [d1923; d1925]) as H by (vm_compute; reflexivity).
  split; [exact H|].
  exact (get_dates_members bare_year_parse _ _ H d1925).
Defined.






Lemma get_dates_app_witness :
  get_dates zoned_parse (PyList [PyStr "1924-06-01T00:00:00Z"])
    = Ok [mk_datetime 1924 6 1 0 0 0 0 true] ∧
  get_dates zoned_parse (PyList [PyStr "1923"]) = Ok [d1923] ∧
  get_dates zoned_parse (PyList ([PyStr "1924-06-01T00:00:00Z"] ++ [PyStr "1923"]))
    = Raise TypeError.
Proof.
  assert (get_dates zoned_parse (PyList [PyStr "1924-06-01T00:00:00Z"])
          = Ok [mk_datetime 1924 6 1 0 0 0 0 true]) as H1
    by (vm_compute; reflexivity).
  assert (get_dates zoned_parse (PyList [PyStr "1923"]) = Ok [d1923]) as H2
    by (vm_compute; reflexivity).
  split; [exact H1|]. split; [exact H2|].
  pose proof (get_dates_app zoned_parse _ _ _ _ H1 H2) as H.
  destruct (get_dates zoned_parse
              (PyList ([PyStr "1924-06-01T00:00:00Z"] ++ [PyStr "1923"]))) as [y|e].
  - destruct H as [_ H]. exfalso.
    assert (aware (mk_datetime 1924 6 1 0 0 0 0 true) = aware d1923) as Heq.
    { apply H; [apply list_elem_of_here|apply list_elem_of_further, list_elem_of_here]. }
    discriminate Heq.
  - destruct H as [-> _]. reflexivity.
Defined.

(** ** The range pattern, back and forth *)

Lemma chars_append a b : chars (a +:+ b) = chars a ++ chars b.
Proof. induction a as [|c a IH]; simpl; [done|]. by rewrite <-IH. Qed.

Lemma last_slash_unique l1 : ∀ l2 r1 r2,
  slash ∉ r1 → slash ∉ r2 →
  l1 ++ slash :: r1 = l2 ++ slash :: r2 → l1 = l2 ∧ r1 = r2.
Proof.
  induction l1 as [|x l1 IH]; intros [|y l2] r1 r2 H1 H2; simpl.
  - by intros [= ->].
  - intros [= Hy Hr]. exfalso. apply H1. rewrite Hr. set_solver.
  - intros [= Hx Hr]. exfalso. apply H2. rewrite <-Hr. set_solver.
  - intros [= -> H]. destruct (IH _ _ _ H1 H2 H) as [-> ->]. done.
Qed.

(** X6.  A left and a right text put around a slash are found again by
    the range pattern, when neither holds a newline and the right one holds
    no slash. *)
Theorem RANGE_search_round_trip (left right : string) :
  newline ∉ chars left → newline ∉ chars right → slash ∉ chars right →
  RANGE_search (left +:+ "/" +:+ right) = Some (left, right).
Proof.
  intros Hl Hr Hs. unfold RANGE_search.
  rewrite !chars_append. change (chars "/") with [slash]. simpl.
  set (l := chars left ++ slash :: chars right).
  assert (newline ∉ l) as Hnl.
  { unfold l. rewrite elem_of_app, elem_of_cons.
    intros [?|[?|?]]; [done| |done]. by apply slash_not_newline. }
  destruct (RANGE_search_from l) as [g|] eqn:Hg.
  - apply RANGE_search_from_Some in Hg
      as (a & b & -> & pre & post & Heq & _ & Hb & _ & _ & Hpre & Hpost).
    assert (pre = []) as ->.
    { destruct Hpre as [->|Hlast]; [done|]. exfalso. apply Hnl. rewrite Heq.
      apply elem_of_app. left. apply last_Some in Hlast as [pre' ->]. set_solver. }
    assert (post = []) as ->.
    { destruct Hpost as [->|Hhead]; [done|]. exfalso. apply Hnl. rewrite Heq.
      destruct post as [|p post]; [done|]. injection Hhead as ->. set_solver. }
    simpl in Heq. rewrite app_nil_r in Heq.
    destruct (last_slash_unique _ _ _ _ Hs Hb Heq) as [<- <-].
    by rewrite !str_chars.
  - apply RANGE_search_from_None in Hg. exfalso. apply Hg. unfold l. set_solver.
Qed.

Lemma RANGE_search_round_trip_witness :
  (newline ∉ chars "1923-05") ∧ (newline ∉ chars "1925") ∧ (slash ∉ chars "1925") ∧
  RANGE_search ("1923-05" +:+ "/" +:+ "1925") = Some ("1923-05"%string, "1925"%string).
Proof.
  assert (newline ∉ chars "1923-05") as H1 by (vm_compute; set_solver).
  assert (newline ∉ chars "1925") as H2 by (vm_compute; set_solver).
  assert (slash ∉ chars "1925") as H3 by (vm_compute; set_solver).
  split; [exact H1|]. split; [exact H2|]. split; [exact H3|].
  exact (RANGE_search_round_trip "1923-05" "1925" H1 H2 H3).
Defined.

(** ** More on splitting *)

Lemma is_prefix_complete p b : is_prefix p (p ++ b) = true.
Proof.
  induction p as [|c p IH]; simpl; [done|].
  by rewrite (proj2 (Ascii.eqb_eq c c) eq_refl), IH.
Qed.

(** No fragment holds the separator.  [cur] is the fragment being read:
    no occurrence of the separator in what is read and what is left
    starts inside it. *)
Lemma split_from_no_sep sep n : ∀ l cur frag,
  sep ≠ [] → (length l ≤ n)%nat →
  (∀ a b, cur ++ l = a ++ sep ++ b → (length cur ≤ length a)%nat) →
  frag ∈ split_from sep l 0 cur → ¬ occurs sep (chars frag).
Proof.
  induction n as [|n IH]; intros [|c l] cur frag Hsep Hlen Hinv; simpl in *;
    try lia.
  - intros ->%list_elem_of_singleton. rewrite chars_str. intros (a & b & ->).
    specialize (Hinv a b). rewrite app_nil_r in Hinv. specialize (Hinv eq_refl).
    rewrite !length_app in Hinv. destruct sep; [done|]. simpl in Hinv. lia.
  - intros ->%list_elem_of_singleton. rewrite chars_str. intros (a & b & ->).
    specialize (Hinv a b). rewrite app_nil_r in Hinv. specialize (Hinv eq_refl).
    rewrite !length_app in Hinv. destruct sep; [done|]. simpl in Hinv. lia.
  - destruct (is_prefix sep (c :: l)) eqn:Hp.
    + intros [->|Hfrag]%elem_of_cons.
      * rewrite chars_str. intros (a & b & ->).
        specialize (Hinv a (b ++ c :: l)). rewrite <-!app_assoc in Hinv.
        specialize (Hinv eq_refl). rewrite !length_app in Hinv.
        destruct sep; [done|]. simpl in Hinv. lia.
      * pose proof (is_prefix_app _ _ Hp) as Hl.
        destruct sep as [|s sep]; [done|]. simpl in Hl. injection Hl as -> Hl.
        simpl length in Hfrag.
        replace (S (length sep) - 1)%nat with (length sep) in Hfrag by lia.
        rewrite split_from_skip in Hfrag by (rewrite Hl; rewrite length_app; lia).
        apply (IH (drop (length sep) l) [] frag); [done| |simpl; lia|done].
        rewrite length_drop. lia.
    + intros Hfrag. apply (IH l (cur ++ [c]) frag); [done|lia| |done].
      intros a b Heq. rewrite <-app_assoc in Heq. simpl in Heq.
      pose proof (Hinv a b Heq) as Hle. rewrite length_app. simpl.
      destruct (decide (length a = length cur)) as [Hlen'|]; [|lia].
      exfalso. apply app_inj_1 in Heq as [_ Heq]; [|done].
      rewrite Heq, is_prefix_complete in Hp. done.
Qed.

(** X7.  Splitting a cell on the delimiter loses nothing and leaves no
    delimiter behind: the fragments joined with "|~|" are the cell again,
    and no fragment contains "|~|". *)
Theorem cell_split_round_trip (input_value : string) :
  str (join (chars MARC_delimiter) (chars <$> split MARC_delimiter input_value))
    = input_value ∧
  ∀ fragment, fragment ∈ split MARC_delimiter input_value →
    ¬ occurs (chars MARC_delimiter) (chars fragment).
Proof.
  split; [by apply split_join|].
  intros fragment Hfrag.
  apply (split_from_no_sep (chars MARC_delimiter) (length (chars input_value))
           (chars input_value) [] fragment); [done|done|simpl; lia|done].
Qed.

(** ** More on the list path of map_field_value *)

Lemma elem_of_concat {A} (x : A) (ls : list (list A)) :
  x ∈ concat ls ↔ ∃ l, l ∈ ls ∧ x ∈ l.
Proof.
  induction ls as [|l ls IH]; simpl.
  - split; [by intros ?%elem_of_nil|]. by intros (l & ?%elem_of_nil & _).
  - rewrite elem_of_app, IH. setoid_rewrite elem_of_cons. naive_solver.
Qed.

Section field_mapper_more.
Variable FIELD_MAPPING : list (string * MappingRule).

(** X8.  For a rule that names columns, [map_field_value] returns a list
    of strings none of which is empty, and each of which is the display
    term of a fragment of a cell of one of the named columns. *)
Theorem map_field_value_no_empty_string (row : Row) (field_name : string)
    (config : Config) (rule : MappingRule) (mapping : list string) :
  dict_get FIELD_MAPPING field_name = Some rule →
  rule_columns rule = Some mapping →
  ∃ output, map_field_value FIELD_MAPPING row field_name config
              = Ok (py_str_list output) ∧
            (""%string ∉ output) ∧
            ∀ value, value ∈ output →
              ∃ csv_field fragment,
                csv_field ∈ mapping ∧ fragment ∈ cell_fragments row csv_field ∧
                value = resolve_term (controlled_terms config field_name) fragment.
Proof.
  intros Hrule Hcols.
  exists (map_columns row field_name config mapping). split.
  - unfold map_field_value. rewrite Hrule.
    destruct rule; simpl in Hcols; try done; by injection Hcols as <-.
  - rewrite map_columns_spec. split.
    + by intros [? _]%list_elem_of_filter.
    + intros value [_ Hv]%list_elem_of_filter.
      apply list_elem_of_fmap in Hv as (fragment & -> & Hf).
      apply elem_of_concat in Hf as (frags & Hfrags & Hf).
      apply list_elem_of_fmap in Hfrags as (csv_field & -> & Hc).
      by exists csv_field, fragment.
Qed.

Lemma cell_fragments_blank (row : Row) (mapping : list string) :
  (∀ csv_field, csv_field ∈ mapping →
     row !! csv_field = None ∨ row !! csv_field = Some None ∨
     row !! csv_field = Some (Some ""%string)) →
  concat (cell_fragments row <$> mapping) = [].
Proof.
  induction mapping as [|c mapping IH]; intros Hblank; [done|].
  change (cell_fragments row c ++ concat (cell_fragments row <$> mapping) = []).
  rewrite IH by (intros c' Hc'; apply Hblank; by apply list_elem_of_further).
  unfold cell_fragments.
  by destruct (Hblank c (list_elem_of_here _ _)) as [->|[->| ->]].
Qed.

(** X9.  For a rule that names columns, when every named column is
    missing from the row, null or empty, [map_field_value] returns the
    empty list. *)
Theorem map_field_value_blank_cells (row : Row) (field_name : string)
    (config : Config) (rule : MappingRule) (mapping : list string) :
  dict_get FIELD_MAPPING field_name = Some rule →
  rule_columns rule = Some mapping →
  (∀ csv_field, csv_field ∈ mapping →
     row !! csv_field = None ∨ row !! csv_field = Some None ∨
     row !! csv_field = Some (Some ""%string)) →
  map_field_value FIELD_MAPPING row field_name config = Ok (PyList []).
Proof.
  intros Hrule Hcols Hblank.
  assert (map_columns row field_name config mapping = []) as Hnil.
  { by rewrite map_columns_spec, cell_fragments_blank. }
  unfold map_field_value. rewrite Hrule.
  destruct rule; simpl in Hcols; try done; injection Hcols as <-;
    by rewrite Hnil.
Qed.

(** X10.  The values of a list of columns are the values of its first
    part followed by the values of the rest: the list path of
    [map_field_value] distributes over the concatenation of column lists. *)
Theorem map_columns_app (row : Row) (field_name : string) (config : Config)
    (mapping1 mapping2 : list string) :
  map_columns row field_name config (mapping1 ++ mapping2) =
  map_columns row field_name config mapping1 ++
  map_columns row field_name config mapping2.
Proof.
  rewrite !map_columns_spec.
  by rewrite fmap_app, concat_app, fmap_app, filter_app.
Qed.

End field_mapper_more.

(** ** More on the base name of a field *)

Lemma sub_suffix_no_underscore l : underscore ∉ l → sub_suffix l = l.
Proof.
  induction l as [|c l IH]; [done|].
  intros [Hc Hl]%not_elem_of_cons. simpl.
  destruct (Ascii.eqb c underscore) eqn:Hcu.
  - apply Ascii.eqb_eq in Hcu. congruence.
  - by rewrite IH.
Qed.

(** X11.  A field name made of a base without underscore, an underscore
    and a non-empty run of word characters has that base as its base name;
    the run may itself hold underscores, since the underscore is a word
    character. *)
Theorem strip_suffix_first_underscore (base rest : string) :
  underscore ∉ chars base → rest ≠ ""%string →
  forallb is_word (chars rest) = true →
  strip_suffix (base +:+ "_" +:+ rest) = base.
Proof.
  intros Hbase Hrest Hword. unfold strip_suffix.
  rewrite !chars_append. change (chars "_") with [underscore]. simpl.
  rewrite sub_suffix_first_underscore; [apply str_chars|done| |done].
  intros H. apply Hrest. by rewrite <-(str_chars rest), H.
Qed.

(** X12.  A field name without underscore is its own base name. *)
Theorem strip_suffix_no_underscore (field_name : string) :
  underscore ∉ chars field_name → strip_suffix field_name = field_name.
Proof.
  intros H. unfold strip_suffix. rewrite sub_suffix_no_underscore by done.
  apply str_chars.
Qed.

(** ** More on map_record *)

Lemma facet_fields_facet record facet display :
  (facet, display) ∈ facet_pairs →
  facet_fields record !! facet = Some (record_get record display).
Proof.
  unfold facet_pairs. rewrite !elem_of_cons, elem_of_nil.
  unfold facet_fields, mirror, record_get.
  intros [H|[H|[H|[H|[H|[H|[H|[H|[]]]]]]]]]; injection H as -> ->;
    repeat (rewrite lookup_insert_ne by done);
    rewrite lookup_insert_eq; repeat (rewrite lookup_insert_ne by done); done.
Qed.

Lemma facet_fields_other record key :
  key ∉ facet_pairs.*1 → facet_fields record !! key = record !! key.
Proof.
  unfold facet_pairs. simpl. rewrite !not_elem_of_cons.
  intros (? & ? & ? & ? & ? & ? & ? & ? & _).
  unfold facet_fields, mirror. by rewrite !lookup_insert_ne.
Qed.

Lemma display_not_facet facet display :
  (facet, display) ∈ facet_pairs → display ∉ facet_pairs.*1.
Proof.
  unfold facet_pairs. rewrite !elem_of_cons, elem_of_nil. simpl.
  rewrite !not_elem_of_cons.
  intros [H|[H|[H|[H|[H|[H|[H|[H|[]]]]]]]]]; injection H as -> ->;
    repeat split; try done; apply not_elem_of_nil.
Qed.

Section map_record_more.
Variable FIELD_MAPPING : list (string * MappingRule).
Variable thumbnail_url : Row → res pyval.
Variable requests_get : string → res Response.
Variable series_eq : list (option string) → pyval → res (list bool).

(** X13.  In a record returned by [map_record], each of the eight facet
    fields holds what [record.get] gives for its display field in that same
    record (null when the record has no such field). *)
Theorem facet_fields_are_copies (row : Row) (config : Config)
    (record : UrsusRecord) (log : list string) (facet display : string) :
  run (map_record FIELD_MAPPING thumbnail_url requests_get series_eq row config)
    = (Ok record, log) →
  (facet, display) ∈ facet_pairs →
  record !! facet = Some (record_get record display).
Proof.
  intros (base & thumbnail & record' & _ & _ & _ & ->)%map_record_inv Hpair.
  rewrite (facet_fields_facet _ _ _ Hpair). unfold record_get.
  by rewrite (facet_fields_other _ _ (display_not_facet _ _ Hpair)).
Qed.

(** X14.  In a record returned by [map_record]: when the row has a parent
    that is a key of the collection names, the collection name field and
    its facet are the list holding the title found there, whatever the base
    pass had mapped; when the row has no parent column, or a parent that is
    no key of the collection names, the collection name field is as the
    base pass left it. *)
Theorem collection_name_backfill (row : Row) (config : Config)
    (record : UrsusRecord) (log : list string) :
  run (map_record FIELD_MAPPING thumbnail_url requests_get series_eq row config)
    = (Ok record, log) →
  (∀ parent names title,
     row !! "Parent ARK"%string = Some parent →
     collection_names config = Some names →
     names !! parent = Some title →
     record !! "dlcs_collection_name_tesim"%string = Some (PyList [py_of_cell title]) ∧
     record !! "member_of_collections_ssim"%string = Some (PyList [py_of_cell title])) ∧
  ((row !! "Parent ARK"%string = None ∨
    ∃ parent names, row !! "Parent ARK"%string = Some parent ∧
      collection_names config = Some names ∧ names !! parent = None) →
   ∃ base,
     base_pass FIELD_MAPPING row config (FIELD_MAPPING.*1) ∅ = Ok base ∧
     record !! "dlcs_collection_name_tesim"%string
       = base !! "dlcs_collection_name_tesim"%string).
Proof.
  intros (base & thumbnail & record' & Hbase & _ & Hcoll & ->)%map_record_inv.
  split.
  - intros parent names title Hparent Hnames Htitle.
    unfold collection_name in Hcoll. rewrite Hparent, Hnames, Htitle in Hcoll.
    injection Hcoll as <-.
    rewrite (facet_fields_facet _ "member_of_collections_ssim"
               "dlcs_collection_name_tesim") by (unfold facet_pairs; set_solver).
    rewrite facet_fields_other by (by vm_compute; set_solver).
    unfold record_get. by rewrite lookup_insert_eq.
  - intros Hno. exists base. split; [done|].
    rewrite facet_fields_other by (by vm_compute; set_solver).
    assert (record' = <["thumbnail_url_ss"%string := thumbnail]> base) as ->.
    { unfold collection_name in Hcoll.
      destruct Hno as [Hp|(parent & names & Hp & Hn & Ht)].
      - rewrite Hp in Hcoll. by injection Hcoll.
      - rewrite Hp, Hn, Ht in Hcoll. by injection Hcoll. }
    by rewrite lookup_insert_ne.
Qed.

(** X15.  In a record returned by [map_record], a field of the schema
    that is not the thumbnail, the collection name or a facet holds the
    value [map_field_value] gave for it. *)
Theorem untouched_fields (row : Row) (config : Config)
    (record : UrsusRecord) (log : list string) (field_name : string) :
  run (map_record FIELD_MAPPING thumbnail_url requests_get series_eq row config)
    = (Ok record, log) →
  field_name ∈ FIELD_MAPPING.*1 →
  field_name ∉ derived_fields →
  ∃ value, map_field_value FIELD_MAPPING row field_name config = Ok value ∧
           record !! field_name = Some value.
Proof.
  intros (base & thumbnail & record' & Hbase & _ & Hcoll & ->)%map_record_inv
    Hfield Hnot.
  unfold derived_fields in Hnot. simpl in Hnot.
  apply not_elem_of_cons in Hnot as [Hthumb Hnot].
  apply not_elem_of_cons in Hnot as [Hcname Hnot].
  destruct (proj1 (base_pass_spec _ _ _ _ _ _ Hbase) _ Hfield) as (value & Hv & Hb).
  exists value. split; [done|].
  rewrite facet_fields_other by done.
  rewrite (collection_name_other _ _ _ _ _ Hcoll) by done.
  by rewrite lookup_insert_ne.
Qed.

(** X16.  When [map_field_value] raises for some field of the schema,
    [map_record] raises too, and no request has been made. *)
Theorem failing_rule_stops_map_record (row : Row) (config : Config)
    (field_name : string) (e : exn) :
  field_name ∈ FIELD_MAPPING.*1 →
  map_field_value FIELD_MAPPING row field_name config = Raise e →
  ∃ e', run (map_record FIELD_MAPPING thumbnail_url requests_get series_eq
               row config) = (Raise e', []).
Proof.
  intros Hfield He. unfold run. rewrite map_record_unfold.
  pose proof (base_pass_raise FIELD_MAPPING row config (FIELD_MAPPING.*1) ∅
                field_name e Hfield He) as Hraise.
  destruct (base_pass FIELD_MAPPING row config (FIELD_MAPPING.*1) ∅) as [base|e'].
  - by destruct Hraise.
  - by exists e'.
Qed.

(** X17.  [map_record] makes at most one request, whether it returns or
    raises; when it makes one, it is for the manifest URL of the record,
    and neither the base pass nor the child rows gave a thumbnail. *)
Theorem at_most_one_request (row : Row) (config : Config)
    (outcome : res UrsusRecord) (log : list string) :
  run (map_record FIELD_MAPPING thumbnail_url requests_get series_eq row config)
    = (outcome, log) →
  log = [] ∨
  ∃ base manifest_url,
    log = [manifest_url] ∧
    base_pass FIELD_MAPPING row config (FIELD_MAPPING.*1) ∅ = Ok base ∧
    record_get base "iiif_manifest_url_ssi" = PyStr manifest_url ∧
    truthy (record_get base "thumbnail_url_ss") = false ∧
    ∃ from_child,
      thumbnail_from_child thumbnail_url series_eq base config = Ok from_child ∧
      truthy from_child = false.
Proof.
  unfold run. rewrite map_record_unfold.
  destruct (base_pass FIELD_MAPPING row config (FIELD_MAPPING.*1) ∅) as [base|]
    eqn:Hbase; [|intros [= _ <-]; by left].
  rewrite resolve_thumbnail_unfold.
  assert (∀ thumbnail log',
    match collection_name row config (<["thumbnail_url_ss"%string := thumbnail]> base) with
    | Ok record => (Ok (facet_fields record), log')
    | Raise e => (Raise e, log')
    end = (outcome, log) → log' = log) as Hlog.
  { intros thumbnail log'. by destruct (collection_name _ _ _); intros [= _ <-]. }
  destruct (truthy (record_get base "thumbnail_url_ss")) eqn:Ha.
  { intros <-%Hlog. by left. }
  destruct (thumbnail_from_child thumbnail_url series_eq base config)
    as [from_child|] eqn:Hchild; [|intros [= _ <-]; by left].
  destruct (truthy from_child) eqn:Hb.
  { intros <-%Hlog. by left. }
  rewrite thumbnail_from_manifest_unfold.
  destruct (record_get base "iiif_manifest_url_ssi") as [| | |url| |] eqn:Hurl;
    try (intros <-%Hlog; by left).
  intros <-%Hlog. right. exists base, url. repeat split; try done.
  by exists from_child.
Qed.

(** ** More on thumbnail_from_child *)

Lemma res_bind_Ok {A B} (a : A) (f : A → res B) : Ok a ≫= f = f a.
Proof. done. Qed.


Lemma select_filter (rows : list Row) (P : Row → Prop)
    `{∀ row, Decision (P row)} :
  (filter (λ rb : Row * bool, rb.2 = true)
     (zip rows ((λ row, bool_decide (P row)) <$> rows))).*1 = filter P rows.
Proof.
  induction rows as [|row rows IH]; [done|].
  rewrite fmap_cons.
  change (zip (row :: rows) (bool_decide (P row) :: ((λ row, bool_decide (P row)) <$> rows)))
    with ((row, bool_decide (P row)) :: zip rows ((λ row, bool_decide (P row)) <$> rows)).
  destruct (decide (P row)) as [Hrow|Hrow].
  - rewrite (filter_cons_True P) by done.
    rewrite filter_cons_True by (simpl; by apply bool_decide_eq_true).
    by rewrite fmap_cons, IH.
  - rewrite (filter_cons_False P) by done.
    rewrite filter_cons_False; [done|].
    simpl. by rewrite bool_decide_eq_true.
Qed.

Lemma df_select_filter (data : DataFrame) (P : Row → Prop)
    `{∀ row, Decision (P row)} :
  df_rows (df_select data ((λ row, bool_decide (P row)) <$> df_rows data))
    = filter P (df_rows data).
Proof. unfold df_select. simpl. apply select_filter. Qed.

Lemma df_mask_str (data : DataFrame) (column value : string) :
  column ∈ df_columns data →
  df_mask series_eq data column (PyStr value) =
  Ok ((λ row : Row, bool_decide (default None (row !! column) = Some value))
        <$> df_rows data).
Proof.
  intros Hcol. unfold df_mask, df_column. rewrite decide_True by done.
  simpl. by rewrite <-list_fmap_compose.
Qed.

(** X18.  For a record whose identifier is a string and a table that
    has the parent and the title columns, [thumbnail_from_child] is the
    first thumbnail among the rows whose parent is that identifier; when
    some of them are titled "f. 001r" only those are tried, in the order of
    the table. *)
Theorem thumbnail_from_child_rows (record : UrsusRecord) (config : Config)
    (data : DataFrame) (ark : string) :
  data_frame config = Some data →
  record !! "ark_ssi"%string = Some (PyStr ark) →
  "Parent ARK"%string ∈ df_columns data →
  "Title"%string ∈ df_columns data →
  thumbnail_from_child thumbnail_url series_eq record config =
  first_thumbnail thumbnail_url
    (if decide (first_leaves (children_of data ark) = [])
     then children_of data ark
     else first_leaves (children_of data ark)).
Proof.
  intros Hdata Hark Hparent Htitle. unfold thumbnail_from_child.
  rewrite Hdata, Hark, res_bind_Ok.
  rewrite (df_mask_str data "Parent ARK" ark Hparent), res_bind_Ok.
  cbv zeta.
  set (children := df_select data _).
  assert (df_rows children = children_of data ark) as Hchildren.
  { unfold children, children_of.
    apply (df_select_filter data
             (λ row : Row, default None (row !! "Parent ARK"%string) = Some ark)). }
  rewrite (df_mask_str children "Title" "f. 001r") by done.
  rewrite res_bind_Ok.
  set (representative := df_select children _).
  assert (df_rows representative = first_leaves (children_of data ark)) as Hleaves.
  { unfold representative, first_leaves. rewrite <-Hchildren.
    apply (df_select_filter children
      (λ row : Row, default None (row !! "Title"%string) = Some "f. 001r"%string)). }
  destruct (decide (length (df_rows representative) = 0%nat)) as [Hlen|Hlen];
    rewrite Hleaves in Hlen.
  - apply length_zero_iff_nil in Hlen. rewrite decide_True by done.
    by rewrite Hchildren.
  - rewrite decide_False by (intros Hnil; by rewrite Hnil in Hlen).
    by rewrite Hleaves.
Qed.

(** X19.  When the loop over the candidate rows returns, it returns
    either null, and then every row gave a false value, or a true value,
    and then it is what [thumbnail_url] gave for a row before which every
    row gave a false value. *)
Theorem first_thumbnail_picks_first (rows : list Row) (thumb : pyval) :
  first_thumbnail thumbnail_url rows = Ok thumb →
  (thumb = PyNone ∧
   ∀ row, row ∈ rows → ∃ v, thumbnail_url row = Ok v ∧ truthy v = false) ∨
  (truthy thumb = true ∧
   ∃ i row, rows !! i = Some row ∧ thumbnail_url row = Ok thumb ∧
     ∀ j row', (j < i)%nat → rows !! j = Some row' →
       ∃ v, thumbnail_url row' = Ok v ∧ truthy v = false).
Proof.
  induction rows as [|row rows IH]; simpl.
  - intros [= <-]. left. split; [done|]. by intros row ?%elem_of_nil.
  - destruct (thumbnail_url row) as [v|] eqn:Hv; simpl; [|done].
    destruct (truthy v) eqn:Ht.
    + intros [= <-]. right. split; [done|]. exists 0%nat, row.
      split; [done|]. split; [done|]. intros j row' Hj. lia.
    + intros [[-> Hall]|(Htrue & i & row' & Hi & Hrow' & Hbefore)]%IH.
      * left. split; [done|]. intros r [->|Hr]%elem_of_cons; eauto.
      * right. split; [done|]. exists (S i), row'. split; [done|]. split; [done|].
        intros [|j] r Hj Hr; simpl in Hr.
        -- injection Hr as <-. eauto.
        -- apply (Hbefore j); [lia|done].
Qed.

End map_record_more.

(** ** More on the manifest *)

Lemma dict_get_dict_set {K V} `{EqDecision K} (d : list (K * V)) k v k' :
  dict_get (dict_set d k v) k' = if decide (k = k') then Some v else dict_get d k'.
Proof.
  induction d as [|[k0 v0] d IH]; simpl.
  - by destruct (decide (k = k')).
  - destruct (decide (k0 = k)) as [->|Hne]; simpl.
    + by destruct (decide (k = k')).
    + rewrite IH. destruct (decide (k0 = k')) as [->|]; [|done].
      by rewrite decide_False.
Qed.

Lemma dict_set_head {K V} `{EqDecision K} (d : list (K * V)) k0 v0 k v :
  ∃ v0' d', dict_set ((k0, v0) :: d) k v = (k0, v0') :: d'.
Proof. simpl. destruct (decide (k0 = k)); eauto. Qed.

Lemma canvases_dict_snoc d canvases p :
  canvases_dict d (canvases ++ [p]) =
  dict_set (canvases_dict d canvases) (KStr p.1) (JStr p.2).
Proof. unfold canvases_dict. by rewrite foldl_app. Qed.

Lemma canvases_dict_get d canvases label :
  dict_get (canvases_dict d canvases) (KStr label) =
  match last_id canvases label with
  | Some id => Some (JStr id)
  | None => dict_get d (KStr label)
  end.
Proof.
  unfold last_id.
  induction canvases as [|[l id] canvases IH] using rev_ind; [done|].
  rewrite canvases_dict_snoc, dict_get_dict_set, reverse_app. simpl.
  destruct (decide (l = label)) as [->|Hne].
  - by rewrite decide_True.
  - rewrite decide_False by congruence. apply IH.
Qed.

Lemma canvases_dict_head k0 v0 d canvases :
  ∃ v0' d', canvases_dict ((k0, v0) :: d) canvases = (k0, v0') :: d'.
Proof.
  induction canvases as [|p canvases IH] using rev_ind; [by eexists _, _|].
  destruct IH as (v0' & d' & IH). rewrite canvases_dict_snoc, IH.
  apply dict_set_head.
Qed.

(** The first item of the dict is the first label with its last identifier. *)
Lemma canvases_dict_first label id canvases :
  ∃ id' d',
    canvases_dict [] ((label, id) :: canvases) = (KStr label, JStr id') :: d' ∧
    last_id ((label, id) :: canvases) label = Some id'.
Proof.
  destruct (canvases_dict_head (KStr label) (JStr id) [] canvases) as (v & d' & Hd).
  assert (canvases_dict [] ((label, id) :: canvases)
          = canvases_dict [(KStr label, JStr id)] canvases) as Heq by done.
  pose proof (canvases_dict_get [] ((label, id) :: canvases) label) as Hget.
  rewrite Heq, Hd in Hget. simpl in Hget. rewrite decide_True in Hget by done.
  destruct (last_id ((label, id) :: canvases) label) as [id'|] eqn:Hlast.
  - injection Hget as ->. exists id', d'. by rewrite Heq, Hd.
  - done.
Qed.

Lemma add_canvases_spec cs canvases : ∀ d,
  Forall2 (λ c p, is_canvas c p.1 p.2) cs canvases →
  add_canvases d cs = Ok (canvases_dict d canvases).
Proof.
  intros d H. revert d.
  induction H as [|c [label id] cs canvases Hc _ IH]; intros d; [done|].
  destruct Hc as (Hlabel & images & image & resource & service
                  & Himages & Himage & Hresource & Hservice & Hid).
  simpl in *. rewrite Hlabel. simpl. rewrite Himages. simpl. rewrite Himage. simpl.
  rewrite Hresource. simpl. rewrite Hservice. simpl. rewrite Hid. simpl.
  apply IH.
Qed.

Lemma add_sequences_spec ss seqs : ∀ d,
  Forall2 is_sequence ss seqs →
  add_sequences d ss = Ok (canvases_dict d (concat seqs)).
Proof.
  intros d H. revert d.
  induction H as [|seq canvases ss seqs (cs & Hcs & Hcanvases) _ IH]; intros d;
    [done|].
  simpl. rewrite Hcs. simpl. rewrite (add_canvases_spec _ _ _ Hcanvases). simpl.
  rewrite IH. unfold canvases_dict. by rewrite foldl_app.
Qed.

(** X20.  On a manifest that has the structure the code reads
    (sequences, canvases, a label and the identifier of the image service
    of the first image), the URL is the identifier of the canvas labelled
    "f. 001r" when there is one with a non-empty identifier, and otherwise
    the identifier filed under the label of the first canvas, followed by
    the image request suffix; with no canvas at all the access fails with
    [IndexError].  Of several canvases with one label the last counts. *)
Theorem thumbnail_of_manifest_choice (manifest : json)
    (seqs : list (list (string * string))) :
  is_manifest manifest seqs →
  thumbnail_of_manifest manifest =
  match choose_canvas (concat seqs) with
  | Some id => Ok (PyStr (id +:+ IIIF_suffix))
  | None => Raise IndexError
  end.
Proof.
  intros (ss & Hss & Hseqs). unfold thumbnail_of_manifest.
  rewrite Hss. simpl. rewrite (add_sequences_spec _ _ _ Hseqs). simpl.
  pose proof (canvases_dict_get [] (concat seqs) "f. 001r") as Hget.
  unfold choose_canvas.
  destruct (concat seqs) as [|[label id] canvases] eqn:Hc.
  - simpl in *. done.
  - destruct (canvases_dict_first label id canvases) as (id' & d' & Hd & Hlast).
    rewrite Hget, Hlast. rewrite Hd. clear Hget.
    destruct (last_id ((label, id) :: canvases) "f. 001r") as [leaf|]; simpl.
    + destruct (decide (leaf = ""%string)) as [->|Hne]; simpl; [done|].
      by rewrite (proj2 (String.eqb_neq _ _) Hne).
    + done.
Qed.

Section manifest_more.
Variable requests_get : string → res Response.

(** X21.  What [thumbnail_from_manifest] returns is null or a text that
    ends with the image request suffix "/full/!200,200/0/default.jpg". *)
Theorem thumbnail_from_manifest_shape (record : UrsusRecord) (log log' : list string)
    (thumbnail : pyval) :
  thumbnail_from_manifest requests_get record log = (Ok thumbnail, log') →
  thumbnail = PyNone ∨ ∃ id, thumbnail = PyStr (id +:+ IIIF_suffix).
Proof.
  rewrite thumbnail_from_manifest_unfold.
  destruct (record_get record "iiif_manifest_url_ssi") as [| | |url| |];
    try (intros [= <- <-]; by left).
  destruct (requests_get url) as [response|]; [|intros [= <- <-]; by left].
  destruct (response_json response) as [manifest|]; [|intros [= <- <-]; by left].
  destruct (thumbnail_of_manifest manifest) as [w|] eqn:Hw; [|intros [= <- <-]; by left].
  intros [= <- <-]. right. by apply thumbnail_of_manifest_shape in Hw.
Qed.

End manifest_more.

(** ** More on load_csv *)

Lemma append_assoc (a b c : string) : (a +:+ b) +:+ c = a +:+ (b +:+ c).
Proof.
  induction a as [|x a IH]; [done|].
  change (String x ((a +:+ b) +:+ c) = String x (a +:+ (b +:+ c))). by f_equal.
Qed.

Lemma append_empty_r (a : string) : a +:+ "" = a.
Proof.
  induction a as [|x a IH]; [done|].
  change (String x (a +:+ "") = String x a). by f_equal.
Qed.

Lemma text_of_app out1 out2 : text_of (out1 ++ out2) = text_of out1 +:+ text_of out2.
Proof.
  induction out1 as [|[text|docs] out1 IH]; simpl; [done| |done].
  by rewrite IH, append_assoc.
Qed.

Lemma text_of_printed_false repr records :
  text_of (printed repr false records) =
  foldr (λ record text, ", " +:+ end_of_line +:+ repr record +:+ text) ""
    records.
Proof.
  induction records as [|record rest IH]; [done|].
  change (text_of (printed repr false (record :: rest)))
    with ((", " +:+ end_of_line) +:+
          ((repr record +:+ "") +:+ text_of (printed repr false rest))).
  rewrite IH, append_empty_r, append_assoc. done.
Qed.

Lemma text_of_printed repr records :
  text_of (printed repr true records) =
  String.concat (", " +:+ end_of_line) (repr <$> records).
Proof.
  destruct records as [|record rest]; [done|].
  change (text_of (printed repr true (record :: rest)))
    with ((repr record +:+ "") +:+ text_of (printed repr false rest)).
  rewrite text_of_printed_false, append_empty_r.
  revert record. induction rest as [|record' rest IH]; intros record.
  - simpl. by rewrite append_empty_r.
  - change (repr <$> record :: record' :: rest)
      with (repr record :: (repr <$> record' :: rest)).
    change (String.concat (", " +:+ end_of_line) (repr record :: (repr <$> record' :: rest)))
      with (repr record +:+ (", " +:+ end_of_line) +:+
            String.concat (", " +:+ end_of_line) (repr <$> record' :: rest)).
    rewrite <-IH. simpl foldr. by rewrite !append_assoc.
Qed.

Lemma printed_all repr first_row records :
  Forall is_printed (printed repr first_row records).
Proof.
  revert first_row. induction records as [|record rest IH]; intros first_row;
    simpl; [done|].
  apply Forall_app. split; [by destruct first_row; repeat constructor|].
  constructor; [done|apply IH].
Qed.

Section load_csv_facts.
Variable FIELD_MAPPING : list (string * MappingRule).
Variable thumbnail_url : Row → res pyval.
Variable requests_get : string → res Response.
Variable series_eq : list (option string) → pyval → res (list bool).
Variable read_csv : string → res DataFrame.
Variable load_field_config : string → res (gmap string (gmap string string)).
Variable solr_add : list UrsusRecord → res unit.
Variable repr : UrsusRecord → string.

Local Abbreviation load_rows :=
  (load_rows FIELD_MAPPING thumbnail_url requests_get series_eq solr_add repr).
Local Abbreviation load_csv :=
  (load_csv FIELD_MAPPING thumbnail_url requests_get series_eq read_csv
     load_field_config solr_add repr).
Local Abbreviation map_all :=
  (map_all FIELD_MAPPING thumbnail_url requests_get series_eq).
Local Abbreviation map_record :=
  (map_record FIELD_MAPPING thumbnail_url requests_get series_eq).

(** X22.  The loop of [load_csv] passes over the rows whose object type
    is "ChildWork" or "Page": running it on all the rows or on the others
    alone gives the same output, the same requests and the same outcome. *)
Theorem load_rows_skips_children (solr_client : bool) (config : Config)
    (rows : list Row) (first_row : bool) (out : list output) (log : list string) :
  load_rows solr_client config rows first_row out log =
  load_rows solr_client config (mapped_rows rows) first_row out log.
Proof.
  revert first_row out log.
  induction rows as [|row rows IH]; intros first_row out log; [done|].
  unfold mapped_rows. destruct (is_child_row row) eqn:Hrow.
  - rewrite filter_cons_False by (by rewrite Hrow). simpl. rewrite Hrow. apply IH.
  - rewrite filter_cons_True by done. simpl. rewrite Hrow.
    destruct (map_record row config log) as [[record|e] log']; [|done].
    destruct solr_client.
    + destruct (solr_add [record]); [apply IH|done].
    + apply IH.
Qed.

Lemma load_rows_print config rows : ∀ first_row out log out' log',
  load_rows false config rows first_row out log = (None, out', log') →
  ∃ records,
    map_all config (mapped_rows rows) log = (Ok records, log') ∧
    out' = out ++ printed repr first_row records.
Proof.
  induction rows as [|row rows IH]; intros first_row out log out' log'.
  - intros [= <- <-]. exists []. by rewrite app_nil_r.
  - unfold mapped_rows. simpl load_rows. destruct (is_child_row row) eqn:Hrow.
    + rewrite filter_cons_False by (by rewrite Hrow). apply IH.
    + rewrite filter_cons_True by done. simpl map_all.
      destruct (map_record row config log) as [[record|e] log1]; [|done].
      intros (records & Hall & ->)%IH. fold (mapped_rows rows). rewrite Hall.
      exists (record :: records). split; [done|].
      simpl printed. destruct first_row; by rewrite <-?app_assoc.
Qed.

Lemma load_rows_solr config rows : ∀ first_row out log out' log',
  load_rows true config rows first_row out log = (None, out', log') →
  ∃ records,
    map_all config (mapped_rows rows) log = (Ok records, log') ∧
    out' = out ++ ((λ record, SolrAdd [record]) <$> records) ∧
    ∀ record, record ∈ records → is_ok (solr_add [record]).
Proof.
  induction rows as [|row rows IH]; intros first_row out log out' log'.
  - intros [= <- <-]. exists []. rewrite app_nil_r.
    split; [done|]. split; [done|]. by intros record ?%elem_of_nil.
  - unfold mapped_rows. simpl load_rows. destruct (is_child_row row) eqn:Hrow.
    + rewrite filter_cons_False by (by rewrite Hrow). apply IH.
    + rewrite filter_cons_True by done. simpl map_all.
      destruct (map_record row config log) as [[record|e] log1]; [|done].
      destruct (solr_add [record]) as [[]|] eqn:Hadd; [|done].
      assert ((if first_row then out else out) = out) as -> by by destruct first_row.
      intros (records & Hall & -> & Hok)%IH. fold (mapped_rows rows). rewrite Hall.
      exists (record :: records). split; [done|]. split.
      * by rewrite <-app_assoc.
      * intros r [->|Hr]%elem_of_cons; [by rewrite Hadd|by apply Hok].
Qed.

Lemma load_csv_inv solr_url filename out log :
  load_csv filename solr_url = (None, out, log) →
  ∃ data_frame mask names fields out',
    read_csv filename = Ok data_frame ∧
    df_mask series_eq data_frame "Object Type" (PyStr "Collection") = Ok mask ∧
    collection_index (df_columns data_frame)
      (df_rows (df_select data_frame mask)) ∅ = Ok names ∧
    load_field_config "./fields" = Ok fields ∧
    load_rows (truthy (py_of_cell solr_url)) (config_of data_frame names fields)
      (df_rows data_frame) true
      (if truthy (py_of_cell solr_url) then [] else [python_print "[" ""]) []
      = (None, out', log) ∧
    out = if truthy (py_of_cell solr_url) then out'
          else out' ++ [python_print "]" end_of_line].
Proof.
  unfold load_csv.
  destruct (read_csv filename) as [data_frame|]; [|done].
  destruct (df_mask series_eq data_frame "Object Type" (PyStr "Collection"))
    as [mask|] eqn:Hmask; [|done].
  simpl df_columns.
  destruct (collection_index (df_columns data_frame)
              (df_rows (df_select data_frame mask)) ∅) as [names|] eqn:Hnames;
    [|done].
  destruct (load_field_config "./fields") as [fields|] eqn:Hfields; [|done].
  fold (config_of data_frame names fields).
  destruct (load_rows (truthy (py_of_cell solr_url)) (config_of data_frame names fields)
              (df_rows data_frame) true _ []) as [[[e|] out'] log'] eqn:Hrows; [done|].
  intros [= <- <-]. by exists data_frame, mask, names, fields, out'.
Qed.

(** X23.  When [load_csv] ends without an exception and has no index to
    write to: the table was read, the collection names are those of its
    rows of type "Collection", the vocabularies are what [load_field_config]
    gave for "./fields", and with the config made of these three every
    mapped row, in the order of the table, was mapped by [map_record]; the
    requests made are those of these calls; everything sent out is printed
    text, and the text is an opening bracket, what [print] writes for each
    of these records, separated by a comma, a space and a line end, and a
    closing bracket and a line end. *)
Theorem load_csv_prints_a_list (filename : string) (solr_url : option string)
    (out : list output) (log : list string) :
  load_csv filename solr_url = (None, out, log) →
  truthy (py_of_cell solr_url) = false →
  ∃ data_frame mask names fields records,
    read_csv filename = Ok data_frame ∧
    df_mask series_eq data_frame "Object Type" (PyStr "Collection") = Ok mask ∧
    collection_index (df_columns data_frame)
      (df_rows (df_select data_frame mask)) ∅ = Ok names ∧
    load_field_config "./fields" = Ok fields ∧
    map_all (config_of data_frame names fields) (mapped_rows (df_rows data_frame)) []
      = (Ok records, log) ∧
    Forall is_printed out ∧
    text_of out =
      "[" +:+ String.concat (", " +:+ end_of_line) (repr <$> records)
          +:+ "]" +:+ end_of_line.
Proof.
  intros (data_frame & mask & names & fields & out' & Hread & Hmask & Hnames &
          Hfields & Hrows & ->)%load_csv_inv Hsolr.
  rewrite Hsolr in *.
  apply load_rows_print in Hrows as (records & Hall & ->).
  exists data_frame, mask, names, fields, records.
  do 5 (split; [done|]). split.
  - rewrite !Forall_app. repeat split; [by repeat constructor|
      apply printed_all|by repeat constructor].
  - rewrite !text_of_app, text_of_printed. simpl.
    by rewrite !append_empty_r.
Qed.

(** X24.  When [load_csv] ends without an exception and has an index to
    write to: the table was read, the collection names are those of its
    rows of type "Collection", the vocabularies are what [load_field_config]
    gave for "./fields", and with the config made of these three every
    mapped row, in the order of the table, was mapped by [map_record]; each
    of these records was added to the index, one document at a time in
    that order, the index accepted each, and nothing was printed. *)
Theorem load_csv_adds_each_record (filename : string) (solr_url : option string)
    (out : list output) (log : list string) :
  load_csv filename solr_url = (None, out, log) →
  truthy (py_of_cell solr_url) = true →
  ∃ data_frame mask names fields records,
    read_csv filename = Ok data_frame ∧
    df_mask series_eq data_frame "Object Type" (PyStr "Collection") = Ok mask ∧
    collection_index (df_columns data_frame)
      (df_rows (df_select data_frame mask)) ∅ = Ok names ∧
    load_field_config "./fields" = Ok fields ∧
    map_all (config_of data_frame names fields) (mapped_rows (df_rows data_frame)) []
      = (Ok records, log) ∧
    out = (λ record, SolrAdd [record]) <$> records ∧
    (∀ record, record ∈ records → is_ok (solr_add [record])) ∧
    text_of out = ""%string.
Proof.
  intros (data_frame & mask & names & fields & out' & Hread & Hmask & Hnames &
          Hfields & Hrows & ->)%load_csv_inv Hsolr.
  rewrite Hsolr in *.
  apply load_rows_solr in Hrows as (records & Hall & -> & Hadded).
  exists data_frame, mask, names, fields, records.
  do 5 (split; [done|]). split; [done|]. split; [done|].
  clear. induction records as [|record records IH]; [done|]. exact IH.
Qed.

End load_csv_facts.

Lemma collection_index_spec columns rows : ∀ names0 names,
  collection_index columns rows names0 = Ok names →
  ∀ ark title, names !! ark = Some title →
    names0 !! ark = Some title ∨
    ∃ row, row ∈ rows ∧ default None (row !! "Item ARK"%string) = ark ∧
           default None (row !! "Title"%string) = title.
Proof.
  induction rows as [|row rows IH]; intros names0 names; simpl.
  - intros [= <-]. eauto.
  - destruct (decide ("Item ARK"%string ∈ columns)); [|done].
    destruct (decide ("Title"%string ∈ columns)); [|done].
    intros Hrest ark title Hlook.
    destruct (IH _ _ Hrest ark title Hlook) as [Hins|(r & Hr & Hark & Htitle)].
    + destruct (decide (default None (row !! "Item ARK"%string) = ark)) as [Heq|Hne].
      * rewrite Heq, lookup_insert_eq in Hins. injection Hins as Ht.
        right. exists row. split; [apply list_elem_of_here|done].
      * rewrite lookup_insert_ne in Hins by done. by left.
    + right. exists r. split; [by apply list_elem_of_further|done].
Qed.

Lemma collection_index_dom columns rows : ∀ names0 names,
  collection_index columns rows names0 = Ok names →
  ∀ ark, is_Some (names0 !! ark) ∨
         (∃ row, row ∈ rows ∧ default None (row !! "Item ARK"%string) = ark) →
         is_Some (names !! ark).
Proof.
  induction rows as [|row rows IH]; intros names0 names; simpl.
  - intros [= <-] ark [H|(row & Hrow%elem_of_nil & _)]; done.
  - destruct (decide ("Item ARK"%string ∈ columns)); [|done].
    destruct (decide ("Title"%string ∈ columns)); [|done].
    intros Hrest ark Hark. apply (IH _ _ Hrest).
    destruct (decide (default None (row !! "Item ARK"%string) = ark)) as [Heq|Hne].
    + left. rewrite Heq, lookup_insert_eq. eauto.
    + destruct Hark as [H|(r & [->|Hr]%elem_of_cons & Har)]; [|done|].
      * left. by rewrite lookup_insert_ne.
      * right. eauto.
Qed.

(** X25.  The collection names built by [load_csv] have a key for the
    identifier of every collection row and for nothing else, and the title
    filed under a key is the title of a collection row with that
    identifier. *)
Theorem collection_index_entries (columns : list string) (rows : list Row)
    (names : gmap (option string) (option string)) :
  collection_index columns rows ∅ = Ok names →
  (∀ ark, is_Some (names !! ark) ↔
          ∃ row, row ∈ rows ∧ default None (row !! "Item ARK"%string) = ark) ∧
  (∀ ark title, names !! ark = Some title →
     ∃ row, row ∈ rows ∧ default None (row !! "Item ARK"%string) = ark ∧
            default None (row !! "Title"%string) = title).
Proof.
  intros Hnames. split.
  - intros ark. split.
    + intros [title Htitle].
      destruct (collection_index_spec _ _ _ _ Hnames ark title Htitle)
        as [H|(row & Hrow & Hark & _)]; [by rewrite lookup_empty in H|eauto].
    + intros H. apply (collection_index_dom _ _ _ _ Hnames). by right.
  - intros ark title Htitle.
    destruct (collection_index_spec _ _ _ _ Hnames ark title Htitle)
      as [H|H]; [by rewrite lookup_empty in H|done].
Qed.

Section requests_facts.
Variable FIELD_MAPPING : list (string * MappingRule).
Variable thumbnail_url : Row → res pyval.
Variable requests_get : string → res Response.
Variable series_eq : list (option string) → pyval → res (list bool).
Variable read_csv : string → res DataFrame.
Variable load_field_config : string → res (gmap string (gmap string string)).
Variable solr_add : list UrsusRecord → res unit.
Variable repr : UrsusRecord → string.

Lemma map_record_log row config log :
  ∃ extra,
    (map_record FIELD_MAPPING thumbnail_url requests_get series_eq row config log).2
      = log ++ extra ∧ (length extra ≤ 1)%nat.
Proof.
  rewrite map_record_unfold.
  destruct (base_pass FIELD_MAPPING row config (FIELD_MAPPING.*1) ∅) as [base|];
    [|exists []; rewrite app_nil_r; split; [done|simpl; lia]].
  assert (∃ extra,
    (resolve_thumbnail thumbnail_url requests_get series_eq base config log).2
      = log ++ extra ∧ (length extra ≤ 1)%nat) as (extra & Hextra & Hlen).
  { rewrite resolve_thumbnail_unfold.
    destruct (truthy (record_get base "thumbnail_url_ss"));
      [exists []; rewrite app_nil_r; split; [done|simpl; lia]|].
    destruct (thumbnail_from_child thumbnail_url series_eq base config)
      as [from_child|]; [|exists []; rewrite app_nil_r; split; [done|simpl; lia]].
    destruct (truthy from_child); [exists []; rewrite app_nil_r; split; [done|simpl; lia]|].
    rewrite thumbnail_from_manifest_unfold.
    destruct (record_get base "iiif_manifest_url_ssi") as [| | |url| |];
      try (exists []; rewrite app_nil_r; split; [done|simpl; lia]).
    exists [url]. split; [done|simpl; lia]. }
  exists extra. split; [|done].
  destruct (resolve_thumbnail thumbnail_url requests_get series_eq base config log)
    as [[thumbnail|] log']; [|done].
  by destruct (collection_name row config _).
Qed.

Lemma load_rows_log solr_client config rows : ∀ first_row out log,
  ∃ extra,
    (load_rows FIELD_MAPPING thumbnail_url requests_get series_eq solr_add repr
       solr_client config rows first_row out log).2 = log ++ extra ∧
    (length extra ≤ length (mapped_rows rows))%nat.
Proof.
  induction rows as [|row rows IH]; intros first_row out log.
  - exists []. rewrite app_nil_r. split; [done|simpl; lia].
  - unfold mapped_rows. simpl load_rows. destruct (is_child_row row) eqn:Hrow.
    + rewrite filter_cons_False by (by rewrite Hrow). apply IH.
    + rewrite filter_cons_True by done.
      destruct (map_record_log row config log) as (extra & Hextra & Hlen).
      destruct (map_record FIELD_MAPPING thumbnail_url requests_get series_eq
                  row config log) as [[record|e] log1]; simpl in Hextra; subst log1.
      * assert (∀ out1, ∃ extra',
          (load_rows FIELD_MAPPING thumbnail_url requests_get series_eq solr_add repr
             solr_client config rows false out1 (log ++ extra)).2
            = log ++ extra' ∧
          (length extra' ≤ S (length (mapped_rows rows)))%nat) as Hnext.
        { intros out1. destruct (IH false out1 (log ++ extra)) as (extra' & -> & Hlen').
          exists (extra ++ extra'). rewrite app_assoc. split; [done|].
          rewrite length_app. lia. }
        destruct solr_client.
        -- destruct (solr_add [record]); [apply Hnext|].
           exists extra. split; [done|]. simpl. lia.
        -- apply Hnext.
      * exists extra. split; [done|]. simpl. lia.
Qed.

(** X26.  [load_csv] makes no more requests than the table has rows
    that are neither child works nor pages, and none when the table cannot
    be read. *)
Theorem load_csv_requests (filename : string) (solr_url : option string) :
  (length (load_csv FIELD_MAPPING thumbnail_url requests_get series_eq read_csv
             load_field_config solr_add repr filename solr_url).2
   ≤ match read_csv filename with
     | Ok data_frame => length (mapped_rows (df_rows data_frame))
     | Raise _ => 0
     end)%nat.
Proof.
  unfold load_csv.
  destruct (read_csv filename) as [data_frame|]; [|done].
  destruct (df_mask series_eq data_frame "Object Type" (PyStr "Collection"))
    as [mask|]; [|simpl; lia].
  destruct (collection_index _ _ ∅) as [names|]; [|simpl; lia].
  destruct (load_field_config "./fields") as [fields|]; [|simpl; lia].
  match goal with
  | |- context [load_rows ?a ?b ?c ?d ?e ?f ?s ?cfg ?rows ?fr ?o ?l] =>
      destruct (load_rows_log s cfg rows fr o l) as (extra & Hextra & Hlen);
      destruct (load_rows a b c d e f s cfg rows fr o l) as [[[e'|] out'] log']
  end; simpl in *; subst log'; simpl; lia.
Qed.

End requests_facts.

(** ** The further facts on the sample data *)

Ltac by_decide := apply (bool_decide_unpack _); vm_compute; exact I.

Lemma work_out_returns : is_ok work_out.1.
Proof. vm_compute. exact I. Qed.

Lemma sample_print_ends : sample_print.1.1 = None.
Proof. vm_compute. reflexivity. Qed.

Lemma sample_index_ends : sample_index.1.1 = None.
Proof. vm_compute. reflexivity. Qed.

Lemma sample_manifest_fetched :
  is_ok (thumbnail_from_manifest sample_web
           {[ "iiif_manifest_url_ssi"%string := PyStr "https://iiif.example/manifest" ]}
           []).1.
Proof. vm_compute. exact I. Qed.

Lemma sample_collection_index :
  is_ok (collection_index sample_columns [collection_row] ∅).
Proof. vm_compute. exact I. Qed.

Lemma cell_split_round_trip_witness :
  "a"%string ∈ split MARC_delimiter "a|~|b|~|" ∧
  ¬ occurs (chars MARC_delimiter) (chars "a").
Proof.
  assert ("a"%string ∈ split MARC_delimiter "a|~|b|~|") as H by by_decide.
  split; [exact H|].
  exact (proj2 (cell_split_round_trip "a|~|b|~|") "a"%string H).
Defined.

Lemma map_field_value_no_empty_string_witness :
  ∃ output,
    map_field_value [("title_tesim"%string, RuleColumn "Title")]
      {[ "Title"%string := Some "a|~|b|~|"%string ]} "title_tesim"
      (mk_Config None None None) = Ok (py_str_list output) ∧
    ""%string ∉ output.
Proof.
  destruct (map_field_value_no_empty_string
              [("title_tesim"%string, RuleColumn "Title")]
              {[ "Title"%string := Some "a|~|b|~|"%string ]} "title_tesim"
              (mk_Config None None None) (RuleColumn "Title") ["Title"%string]
              eq_refl eq_refl) as (output & Hout & Hempty & _).
  exists output. split; [exact Hout | exact Hempty].
Defined.

Lemma map_field_value_blank_cells_witness :
  map_field_value [("title_tesim"%string, RuleColumns ["Title"; "Alt Title"]%string)]
    {[ "Title"%string := None ]} "title_tesim" (mk_Config None None None)
  = Ok (PyList []).
Proof.
  refine (map_field_value_blank_cells
            [("title_tesim"%string, RuleColumns ["Title"; "Alt Title"]%string)]
            {[ "Title"%string := None ]} "title_tesim" (mk_Config None None None)
            (RuleColumns ["Title"; "Alt Title"]%string) ["Title"; "Alt Title"]%string
            eq_refl eq_refl _).
  intros csv_field [->|[->|[]%elem_of_nil]%elem_of_cons]%elem_of_cons.
  - right. left. reflexivity.
  - left. reflexivity.
Defined.

Lemma strip_suffix_first_underscore_witness :
  (underscore ∉ chars "resource") ∧
  strip_suffix ("resource" +:+ "_" +:+ "type_tesim") = "resource"%string.
Proof.
  assert (underscore ∉ chars "resource") as H by by_decide.
  split; [exact H|].
  refine (strip_suffix_first_underscore "resource" "type_tesim" H _ eq_refl).
  discriminate.
Defined.

Lemma strip_suffix_no_underscore_witness :
  (underscore ∉ chars "id") ∧ strip_suffix "id" = "id"%string.
Proof.
  assert (underscore ∉ chars "id") as H by by_decide.
  split; [exact H|]. exact (strip_suffix_no_underscore "id" H).
Defined.

Lemma facet_fields_are_copies_witness :
  ∃ record log, work_out = (Ok record, log) ∧
    record !! "member_of_collections_ssim"%string
      = Some (record_get record "dlcs_collection_name_tesim").
Proof.
  pose proof work_out_returns as Hok.
  destruct work_out as [[record|e] log] eqn:Hout.
  - exists record, log. split; [reflexivity|].
    refine (facet_fields_are_copies _ _ _ _ _ _ _ _ _ _ Hout _).
    do 4 apply list_elem_of_further. apply list_elem_of_here.
  - destruct Hok.
Defined.

Lemma collection_name_backfill_witness :
  ∃ record log, work_out = (Ok record, log) ∧
    record !! "dlcs_collection_name_tesim"%string = Some (PyList [PyStr "Maps"]) ∧
    record !! "member_of_collections_ssim"%string = Some (PyList [PyStr "Maps"]).
Proof.
  pose proof work_out_returns as Hok.
  destruct work_out as [[record|e] log] eqn:Hout.
  - exists record, log. split; [reflexivity|].
    exact (proj1 (collection_name_backfill _ _ _ _ _ _ _ _ Hout)
             (Some "ark:/1/c"%string) {[ Some "ark:/1/c"%string := Some "Maps"%string ]}
             (Some "Maps"%string) eq_refl eq_refl eq_refl).
  - destruct Hok.
Defined.

Lemma untouched_fields_witness :
  ∃ record log, work_out = (Ok record, log) ∧
    ∃ value,
      map_field_value table_mapping work_row "title_tesim" table_config = Ok value ∧
      record !! "title_tesim"%string = Some value.
Proof.
  pose proof work_out_returns as Hok.
  destruct work_out as [[record|e] log] eqn:Hout.
  - exists record, log. split; [reflexivity|].
    refine (untouched_fields _ _ _ _ _ _ _ _ _ Hout _ _); by_decide.
  - destruct Hok.
Defined.

Lemma failing_rule_stops_map_record_witness :
  map_field_value [("id"%string, RuleOther)] work_row "id" table_config
    = Raise MappingTypeError ∧
  ∃ e, run (map_record [("id"%string, RuleOther)] thumbnail_column offline
              no_series_eq work_row table_config) = (Raise e, []).
Proof.
  split; [reflexivity|].
  refine (failing_rule_stops_map_record [("id"%string, RuleOther)] thumbnail_column
            offline no_series_eq work_row table_config "id" MappingTypeError
            _ eq_refl).
  apply list_elem_of_here.
Defined.

Lemma at_most_one_request_witness :
  ∃ outcome log, sample_out = (outcome, log) ∧
    (log = [] ∨ ∃ manifest_url, log = [manifest_url]).
Proof.
  destruct sample_out as [outcome log] eqn:Hout.
  exists outcome, log. split; [reflexivity|].
  destruct (at_most_one_request _ _ _ _ _ _ _ _ Hout)
    as [Hnone|(base & manifest_url & Hone & _)].
  - left. exact Hnone.
  - right. exists manifest_url. exact Hone.
Defined.

Lemma thumbnail_from_child_rows_witness :
  thumbnail_from_child thumbnail_column no_series_eq
    {[ "ark_ssi"%string := PyStr "ark:/1/w" ]} table_config
  = first_thumbnail thumbnail_column
      (if decide (first_leaves (children_of sample_table "ark:/1/w") = [])
       then children_of sample_table "ark:/1/w"
       else first_leaves (children_of sample_table "ark:/1/w")).
Proof.
  refine (thumbnail_from_child_rows thumbnail_column no_series_eq
            {[ "ark_ssi"%string := PyStr "ark:/1/w" ]} table_config
            sample_table "ark:/1/w" eq_refl eq_refl _ _); by_decide.
Defined.

Lemma first_thumbnail_picks_first_witness :
  first_thumbnail thumbnail_column [work_row; verso_row; recto_row]
    = Ok (PyStr "https://iiif.example/p1") ∧
  (PyStr "https://iiif.example/p1" = PyNone ∨
   truthy (PyStr "https://iiif.example/p1") = true).
Proof.
  assert (first_thumbnail thumbnail_column [work_row; verso_row; recto_row]
          = Ok (PyStr "https://iiif.example/p1")) as H by (vm_compute; reflexivity).
  split; [exact H|].
  destruct (first_thumbnail_picks_first thumbnail_column _ _ H)
    as [[Hnone _]|[Htrue _]].
  - left. exact Hnone.
  - right. exact Htrue.
Defined.

Lemma sample_manifest_is_manifest :
  is_manifest sample_manifest [[("f. 002r", "https://iiif.example/img1")]]%string.
Proof.
  eexists. split; [reflexivity|].
  repeat constructor. eexists. split; [reflexivity|].
  repeat constructor. simpl. eexists _, _, _, _. repeat split; reflexivity.
Qed.

Lemma thumbnail_of_manifest_choice_witness :
  is_manifest sample_manifest [[("f. 002r", "https://iiif.example/img1")]]%string ∧
  thumbnail_of_manifest sample_manifest =
  match choose_canvas (concat [[("f. 002r", "https://iiif.example/img1")]]%string) with
  | Some id => Ok (PyStr (id +:+ IIIF_suffix))
  | None => Raise IndexError
  end.
Proof.
  split; [exact sample_manifest_is_manifest|].
  exact (thumbnail_of_manifest_choice sample_manifest _ sample_manifest_is_manifest).
Defined.

Lemma thumbnail_from_manifest_shape_witness :
  ∃ thumbnail log,
    thumbnail_from_manifest sample_web
      {[ "iiif_manifest_url_ssi"%string := PyStr "https://iiif.example/manifest" ]} []
      = (Ok thumbnail, log) ∧
    (thumbnail = PyNone ∨ ∃ id, thumbnail = PyStr (id +:+ IIIF_suffix)).
Proof.
  pose proof sample_manifest_fetched as Hok.
  destruct (thumbnail_from_manifest sample_web
      {[ "iiif_manifest_url_ssi"%string := PyStr "https://iiif.example/manifest" ]} [])
    as [[thumbnail|e] log] eqn:Hout.
  - exists thumbnail, log. split; [reflexivity|].
    exact (thumbnail_from_manifest_shape _ _ _ _ _ Hout).
  - destruct Hok.
Defined.

Lemma load_csv_prints_a_list_witness :
  ∃ out log, sample_print = (None, out, log) ∧
    ∃ mask names records,
      df_mask no_series_eq sample_table "Object Type" (PyStr "Collection") = Ok mask ∧
      collection_index sample_columns (df_rows (df_select sample_table mask)) ∅
        = Ok names ∧
      map_all table_mapping thumbnail_column offline no_series_eq
        (config_of sample_table names ∅) (mapped_rows (df_rows sample_table)) []
        = (Ok records, log) ∧
      Forall is_printed out ∧
      text_of out =
        "[" +:+ String.concat (", " +:+ end_of_line) (sample_repr <$> records)
            +:+ "]" +:+ end_of_line.
Proof.
  pose proof sample_print_ends as Hends.
  destruct sample_print as [[[e|] out] log] eqn:Hout.
  - discriminate Hends.
  - exists out, log. split; [reflexivity|].
    destruct (load_csv_prints_a_list _ _ _ _ _ _ _ _ _ _ _ _ Hout eq_refl)
      as (data_frame & mask & names & fields & records & Hread & Hmask & Hnames &
          Hfields & Hall & Hprinted & Htext).
    injection Hread as <-. injection Hfields as <-.
    exists mask, names, records.
    split; [exact Hmask|]. split; [exact Hnames|]. split; [exact Hall|].
    split; [exact Hprinted | exact Htext].
Defined.

Lemma load_csv_adds_each_record_witness :
  ∃ out log, sample_index = (None, out, log) ∧
    ∃ mask names records,
      df_mask no_series_eq sample_table "Object Type" (PyStr "Collection") = Ok mask ∧
      collection_index sample_columns (df_rows (df_select sample_table mask)) ∅
        = Ok names ∧
      map_all table_mapping thumbnail_column offline no_series_eq
        (config_of sample_table names ∅) (mapped_rows (df_rows sample_table)) []
        = (Ok records, log) ∧
      out = (λ record, SolrAdd [record]) <$> records.
Proof.
  pose proof sample_index_ends as Hends.
  destruct sample_index as [[[e|] out] log] eqn:Hout.
  - discriminate Hends.
  - exists out, log. split; [reflexivity|].
    destruct (load_csv_adds_each_record _ _ _ _ _ _ _ _ _ _ _ _ Hout eq_refl)
      as (data_frame & mask & names & fields & records & Hread & Hmask & Hnames &
          Hfields & Hall & Hadds & _).
    injection Hread as <-. injection Hfields as <-.
    exists mask, names, records.
    split; [exact Hmask|]. split; [exact Hnames|]. split; [exact Hall|].
    exact Hadds.
Defined.

Lemma collection_index_entries_witness :
  ∃ names, collection_index sample_columns [collection_row] ∅ = Ok names ∧
    ∀ ark title, names !! ark = Some title →
      ∃ row, row ∈ [collection_row] ∧
             default None (row !! "Item ARK"%string) = ark ∧
             default None (row !! "Title"%string) = title.
Proof.
  pose proof sample_collection_index as Hok.
  destruct (collection_index sample_columns [collection_row] ∅) as [names|e] eqn:Hnames.
  - exists names. split; [reflexivity|].
    exact (proj2 (collection_index_entries _ _ _ Hnames)).
  - destruct Hok.
Defined.
